(** * purplehoge-portfolio: the GitHub client, the DOM helpers and the
      skills renderer, embedded in Rocq.

    Sources: [js/github-api.js] (the current version of the file, the one
    that defines [getDemoUrl]), the utility module (safeQuerySelector,
    the class helpers, debounce, throttle, escapeHtml, isEmpty,
    shuffleArray, LoadingManager, ErrorHandler) and [js/main.js]
    (renderSkills, renderProjects, getLevelText, the mobile menu).

    Strings are modelled as [string] (sequences of bytes, UTF-8 for text
    outside ASCII).  The built-in case conversions and [trim] are the
    ASCII ones: GitHub repository names, topics and language names are
    ASCII, and bytes above 127 are left untouched. *)

From Stdlib Require Import ZArith Ascii String List Bool Lia Sorting.Sorted
  Sorting.Permutation.
From stdpp Require Import base decidable option list gmap strings pretty.

Local Open Scope string_scope.
Local Open Scope list_scope.
Local Open Scope Z_scope.

(** ** JavaScript string built-ins *)

Module Js.

Definition is_upper (c : ascii) : bool :=
  let n := nat_of_ascii c in (65 <=? n)%nat && (n <=? 90)%nat.

Definition is_lower (c : ascii) : bool :=
  let n := nat_of_ascii c in (97 <=? n)%nat && (n <=? 122)%nat.

Definition lower_char (c : ascii) : ascii :=
  if is_upper c then ascii_of_nat (nat_of_ascii c + 32) else c.

Definition upper_char (c : ascii) : ascii :=
  if is_lower c then ascii_of_nat (nat_of_ascii c - 32) else c.

(** [s.toLowerCase()] *)
Fixpoint toLowerCase (s : string) : string :=
  match s with
  | EmptyString => EmptyString
  | String c s' => String (lower_char c) (toLowerCase s')
  end.

(** [s.startsWith(p)] *)
Fixpoint startsWith (s p : string) : bool :=
  match p, s with
  | EmptyString, _ => true
  | String _ _, EmptyString => false
  | String a p', String b s' => Ascii.eqb a b && startsWith s' p'
  end.

(** [s.includes(sub)] *)
Fixpoint includes (s sub : string) : bool :=
  startsWith s sub ||
  match s with
  | EmptyString => false
  | String _ s' => includes s' sub
  end.

(** [s.endsWith(suf)] *)
Definition endsWith (s suf : string) : bool :=
  let n := String.length s in
  let k := String.length suf in
  (k <=? n)%nat && String.eqb (substring (n - k) k s) suf.

(** White space removed by [trim] (the ASCII part of the ECMAScript
    WhiteSpace and LineTerminator productions). *)
Definition is_space (c : ascii) : bool :=
  let n := nat_of_ascii c in
  ((9 <=? n)%nat && (n <=? 13)%nat) || (n =? 32)%nat.

Fixpoint trimStart (s : string) : string :=
  match s with
  | EmptyString => EmptyString
  | String c s' => if is_space c then trimStart s' else s
  end.

Fixpoint trimEnd (s : string) : string :=
  match s with
  | EmptyString => EmptyString
  | String c s' =>
      match trimEnd s' with
      | EmptyString => if is_space c then EmptyString else String c EmptyString
      | t => String c t
      end
  end.

(** [s.trim()] *)
Definition trim (s : string) : string := trimEnd (trimStart s).

(** [s.charAt(0).toUpperCase() + s.slice(1)] *)
Definition capitalize (s : string) : string :=
  match s with
  | EmptyString => EmptyString
  | String c s' => String (upper_char c) s'
  end.

(** Truthiness of a string-or-null value: [null], [undefined] and the
    empty string are falsy. *)
Definition truthy (o : option string) : bool :=
  match o with
  | Some s => negb (String.eqb s EmptyString)
  | None => false
  end.

(** [new Set(iterable)] followed by spreading: elements in order of
    first insertion. *)
Definition Set_add (seen : list string) (x : string) : list string :=
  if bool_decide (x ∈ seen) then seen else seen ++ [x].

Definition new_Set (l : list string) : list string :=
  fold_left Set_add l [].

(** [arr.includes(x)] on an array of strings *)
Definition array_includes (arr : list string) (x : string) : bool :=
  existsb (String.eqb x) arr.

(** [x || 0] on a number *)
Definition or_zero (x : Z) : Z := if x =? 0 then 0 else x.

(** [arr.sort(compare)].  ECMAScript requires the sort to be stable, and
    for a consistent comparator ([compare_consistent] below) the result
    is the sorted rearrangement that keeps elements of one rank in their
    order; it is computed here by insertion from the right. *)
Section Sort.
Context {A : Type} (compare : A -> A -> Z).

Fixpoint sort_insert (x : A) (l : list A) : list A :=
  match l with
  | [] => [x]
  | y :: l' => if 0 <? compare x y then y :: sort_insert x l' else x :: l
  end.

Fixpoint sort (l : list A) : list A :=
  match l with
  | [] => []
  | x :: l' => sort_insert x (sort l')
  end.

(** A comparator is consistent when "not after" is a total preorder. *)
Definition compare_consistent : Prop :=
  (forall x y, 0 < compare x y -> compare y x <= 0) /\
  (forall x y z, compare x y <= 0 -> compare y z <= 0 -> compare x z <= 0).

(** Of one rank: neither before nor after each other. *)
Definition same_rank (x y : A) : bool :=
  (compare x y <=? 0) && (compare y x <=? 0).
End Sort.

End Js.

(** ** Configuration *)

Module GITHUB_CONFIG.
Definition USERNAME : string := "purplehoge".
Definition API_BASE_URL : string := "https://api.github.com".
Definition CACHE_DURATION : Z := 3600000.
Definition RATE_LIMIT_DELAY : Z := 1000.
Definition MAX_REPOS : Z := 10.
Definition EXCLUDED_REPOS : list string := ["purplehoge"; "README"].
End GITHUB_CONFIG.

(** ** Raw repository objects, as the REST endpoint returns them *)

Record Repo := {
  name : string;
  fork : bool;
  description : option string;
  language : option string;
  topics : option (list string);
  homepage : option string;
  html_url : string;
  stargazers_count : Z;
  updated_at : string;
  created_at : string
}.

(** ** Technology extraction *)

(** An element of a [technologies] array.  [nameMap] is an object literal,
    so a lookup also finds what every object inherits: of the members of
    Object.prototype only [constructor] and [__proto__] are spelled in
    lower case and can be hit after [toLowerCase]. *)
Inductive TechValue :=
| TStr (s : string)
| TInherited (key : string).

Definition techKeywords : list string :=
  ["javascript"; "typescript"; "python"; "java"; "html"; "css";
   "react"; "vue"; "angular"; "node"; "express"; "flask"; "django";
   "git"; "docker"; "mongodb"; "mysql"; "postgresql";
   "frontend"; "backend"; "api"; "rest"].

Definition isTechnologyTopic (topic : string) : bool :=
  existsb (fun keyword => Js.includes (Js.toLowerCase topic) keyword) techKeywords.

Definition nameMap : list (string * string) :=
  [("javascript", "JavaScript"); ("typescript", "TypeScript");
   ("python", "Python"); ("html", "HTML"); ("css", "CSS");
   ("react", "React"); ("vue", "Vue.js"); ("node", "Node.js")].

Fixpoint assoc (k : string) (m : list (string * string)) : option string :=
  match m with
  | [] => None
  | (k', v) :: m' => if String.eqb k k' then Some v else assoc k m'
  end.

Definition inheritedLower : list string := ["constructor"; "__proto__"].

Definition normalizeTechnologyName (tech : string) : TechValue :=
  let key := Js.toLowerCase tech in
  match assoc key nameMap with
  | Some normalized => TStr normalized
  | None =>
      if existsb (String.eqb key) inheritedLower then TInherited key
      else TStr (Js.capitalize tech)
  end.

(** The array [technologies] before deduplication. *)
Definition collectTechnologies (repo : Repo) : list string :=
  let technologies := [] in
  let technologies :=
    if Js.truthy (language repo)
    then technologies ++ [default EmptyString (language repo)]
    else technologies in
  match topics repo with
  | Some ts =>
      if (0 <? Z.of_nat (length ts))
      then technologies ++ filter (fun topic => Is_true (isTechnologyTopic topic)) ts
      else technologies
  | None => technologies
  end.

Definition extractTechnologies (repo : Repo) : list TechValue :=
  take 6 (map normalizeTechnologyName (Js.new_Set (collectTechnologies repo))).


(** ** Demo URL resolution *)

(** What [new URL(url)] exposes to this code. *)
Record URL := { protocol : string; hostname : string }.

Definition vercelDomains : list string := ["vercel.app"; "vercel.com"; "now.sh"].

Definition deployDomains : list string :=
  ["netlify.app"; "netlify.com"; "herokuapp.com"; "github.io"; "pages.dev";
   "railway.app"; "surge.sh"].

Definition webKeywords : list string :=
  ["website"; "site"; "page"; "portfolio"; "blog"; "docs"; "documentation";
   "demo"; "landing"; "web"].

Definition frontendTech : list string := ["html"; "css"; "javascript"; "react"; "vue"].

Definition likelyHasGitHubPages (repo : Repo) : bool :=
  let repoName := Js.toLowerCase (name repo) in
  let description := Js.toLowerCase (default EmptyString (description repo)) in
  let topics := default [] (topics repo) in
  let hasWebKeyword :=
    existsb (fun keyword => Js.includes repoName keyword) webKeywords ||
    existsb (fun keyword => Js.includes description keyword) webKeywords ||
    existsb (fun topic => Js.array_includes webKeywords (Js.toLowerCase topic)) topics in
  let hasFrontendTech :=
    match language repo with
    | Some l => Js.array_includes frontendTech (Js.toLowerCase l)
    | None => false
    end ||
    existsb (fun topic => Js.array_includes frontendTech (Js.toLowerCase topic)) topics in
  let hasGitHubPagesTopic := Js.array_includes topics "github-pages" in
  hasWebKeyword || hasFrontendTech || hasGitHubPagesTopic.

Definition getGitHubPagesUrl (repo : Repo) : option string :=
  let username := GITHUB_CONFIG.USERNAME in
  let repoName := name repo in
  if String.eqb repoName (username +:+ ".github.io") then
    Some ("https://" +:+ username +:+ ".github.io/")
  else
    let githubPagesUrl := "https://" +:+ username +:+ ".github.io/" +:+ repoName +:+ "/" in
    if likelyHasGitHubPages repo then Some githubPagesUrl else None.

Section DemoUrl.

(** The URL constructor of the host: [None] when [new URL(url)] throws. *)
Variable parseURL : string -> option URL.

Definition isVercelUrl (url : string) : bool :=
  match parseURL url with
  | Some urlObj => existsb (fun domain => Js.endsWith (hostname urlObj) domain) vercelDomains
  | None => false
  end.

Definition isValidDeployUrl (url : string) : bool :=
  match parseURL url with
  | Some urlObj =>
      if negb (Js.array_includes ["http:"; "https:"] (protocol urlObj)) then false
      else existsb (fun domain => Js.endsWith (hostname urlObj) domain) deployDomains
  | None => false
  end.

Definition getDemoUrl (repo : Repo) : option string :=
  let fromHomepage :=
    if Js.truthy (homepage repo) then
      let homepage := Js.trim (default EmptyString (homepage repo)) in
      if isVercelUrl homepage then Some homepage
      else if isValidDeployUrl homepage then Some homepage
      else None
    else None in
  match fromHomepage with
  | Some url => Some url
  | None =>
      match getGitHubPagesUrl repo with
      | Some githubPagesUrl => Some githubPagesUrl
      | None =>
          if Js.truthy (homepage repo)
             && Js.truthy (Some (Js.trim (default EmptyString (homepage repo))))
          then Some (Js.trim (default EmptyString (homepage repo)))
          else None
      end
  end.

End DemoUrl.

(** A small URL parser for absolute URLs [scheme://host...], enough to run
    the model on examples; the theorems hold for every parser. *)
Module SimpleURL.

Fixpoint split_at_colon (s : string) : option (string * string) :=
  match s with
  | EmptyString => None
  | String c s' =>
      if Ascii.eqb c ":" then Some (EmptyString, s')
      else match split_at_colon s' with
           | Some (a, b) => Some (String c a, b)
           | None => None
           end
  end.

Definition ends_host (c : ascii) : bool :=
  Ascii.eqb c "/" || Ascii.eqb c "?" || Ascii.eqb c "#" || Ascii.eqb c ":".

Fixpoint take_host (s : string) : string :=
  match s with
  | EmptyString => EmptyString
  | String c s' => if ends_host c then EmptyString else String c (take_host s')
  end.

Definition parse (url : string) : option URL :=
  match split_at_colon url with
  | Some (scheme, String "/" (String "/" rest)) =>
      match scheme, take_host rest with
      | EmptyString, _ | _, EmptyString => None
      | _, host =>
          Some {| protocol := Js.toLowerCase scheme +:+ ":";
                  hostname := Js.toLowerCase host |}
      end
  | _ => None
  end.

End SimpleURL.

(** ** Repository summaries

    The fields of the object literal built in [processRepositories];
    [rs_description], [gd_language] and [gd_topics] are its [description]
    and the [language] and [topics] of its [githubData] (the plain names
    are those of the raw repository).  Dates are kept as the strings they
    are parsed from. *)

Record GithubData := {
  stars : Z;
  gd_language : option string;
  updatedAt : string;
  createdAt : string;
  gd_topics : list string
}.

Record RepoSummary := {
  id : string;
  title : string;
  rs_description : string;
  technologies : list TechValue;
  image : option string;
  demoUrl : option string;
  sourceUrl : string;
  status : string;
  featured : bool;
  githubData : GithubData
}.

Definition isFeaturedRepo (repo : Repo) : bool :=
  let hasStars := 0 <? Js.or_zero (stargazers_count repo) in
  let hasFeaturedTopic := Js.array_includes (default [] (topics repo)) "featured" in
  let isPortfolio := Js.includes (Js.toLowerCase (name repo)) "portfolio" in
  hasStars || hasFeaturedTopic || isPortfolio.

(** The comparator handed to [sort]. *)
Definition compare_featured_stars (a b : RepoSummary) : Z :=
  if featured a && negb (featured b) then -1
  else if negb (featured a) && featured b then 1
  else Js.or_zero (stars (githubData b)) - Js.or_zero (stars (githubData a)).

Section Process.

Variable parseURL : string -> option URL.

(** The object built by the [map] callback. *)
Definition summarize (repo : Repo) : RepoSummary :=
  {| id := "github-" +:+ name repo;
     title := name repo;
     rs_description :=
       if Js.truthy (description repo) then default EmptyString (description repo)
       else "説明がありません";
     technologies := extractTechnologies repo;
     image := None;
     demoUrl := getDemoUrl parseURL repo;
     sourceUrl := html_url repo;
     status := "completed";
     featured := isFeaturedRepo repo;
     githubData :=
       {| stars := stargazers_count repo;
          gd_language := language repo;
          updatedAt := updated_at repo;
          createdAt := created_at repo;
          gd_topics := default [] (topics repo) |} |}.

Definition processRepositories (repos : list Repo) : list RepoSummary :=
  Js.sort compare_featured_stars
    (map summarize
       (List.filter (fun repo => negb (fork repo))
          (List.filter
             (fun repo => negb (Js.array_includes GITHUB_CONFIG.EXCLUDED_REPOS (name repo)))
             repos))).

End Process.

(** ** The client: state, host environment and effects *)

Inductive JsError :=
| FetchFailed                                   (* fetch() rejected *)
| HttpError (status : Z) (statusText : string)  (* thrown on [!response.ok] *)
| JsonSyntaxError                               (* response.json() rejected *)
| TypeError (what : string)
| SelectorSyntaxError (selector : string).      (* DOMException of a selector query *)

Definition error_message (e : JsError) : string :=
  match e with
  | FetchFailed => "Failed to fetch"
  | HttpError status statusText =>
      "GitHub API エラー: " +:+ pretty status +:+ " " +:+ statusText
  | JsonSyntaxError => "Unexpected token"
  | TypeError what => what
  | SelectorSyntaxError selector => "'" +:+ selector +:+ "' is not a valid selector"
  end.

Inductive Level := Log | Warn | Error.

(** A call of [console.log], [console.warn] or [console.error]: its level
    and its first argument (further arguments, the values dumped after the
    message, are not recorded). *)
Record ConsoleEntry := { severity : Level; text : string }.

Record CacheEntry := { data : list RepoSummary; timestamp : Z }.

Record GitHubApiClient := {
  cache : gmap string CacheEntry;
  lastRequestTime : Z;
  isLoading : bool
}.

(** [new GitHubApiClient()] *)
Definition new_GitHubApiClient : GitHubApiClient :=
  {| cache := ∅; lastRequestTime := 0; isLoading := false |}.

(** What the code touches outside the client: the clock behind
    [Date.now()], the console, the global [loadingManager], the class list
    of [document.body] ([None] while there is no body).  [requests] is a
    trace: the clock readings at which [fetch] was called, oldest first. *)
Record Host := {
  now : Z;
  console : list ConsoleEntry;
  requests : list Z;
  activeLoaders : gset string;
  bodyClasses : option (gset string)
}.

Record State := { this : GitHubApiClient; host : Host }.

Definition with_cache (c : gmap string CacheEntry) (s : State) : State :=
  {| this := {| cache := c; lastRequestTime := lastRequestTime (this s);
                isLoading := isLoading (this s) |};
     host := host s |}.

Definition with_lastRequestTime (t : Z) (s : State) : State :=
  {| this := {| cache := cache (this s); lastRequestTime := t;
                isLoading := isLoading (this s) |};
     host := host s |}.

Definition with_isLoading (b : bool) (s : State) : State :=
  {| this := {| cache := cache (this s); lastRequestTime := lastRequestTime (this s);
                isLoading := b |};
     host := host s |}.

Definition with_host (h : Host) (s : State) : State :=
  {| this := this s; host := h |}.

Definition advance (d : Z) (s : State) : State :=
  with_host {| now := now (host s) + d; console := console (host s);
               requests := requests (host s);
               activeLoaders := activeLoaders (host s);
               bodyClasses := bodyClasses (host s) |} s.

(** Synchronous code: a state monad with exceptions. *)
Inductive Result (A : Type) :=
| Ok (a : A)
| Throw (e : JsError).
Arguments Ok {A} a.
Arguments Throw {A} e.

Definition M (A : Type) : Type := State -> Result A * State.

Definition ret {A} (a : A) : M A := fun s => (Ok a, s).
Definition throw {A} (e : JsError) : M A := fun s => (Throw e, s).
Definition bind {A B} (c : M A) (k : A -> M B) : M B :=
  fun s => match c s with
           | (Ok a, s') => k a s'
           | (Throw e, s') => (Throw e, s')
           end.
Definition gets {A} (f : State -> A) : M A := fun s => (Ok (f s), s).
Definition modify (f : State -> State) : M unit := fun s => (Ok tt, f s).

Notation "'let*' x ':=' c 'in' k" := (bind c (fun x => k))
  (at level 10, x name, c at level 100, k at level 200).
Notation "c ';;' k" := (bind c (fun _ => k))
  (at level 100, k at level 200, right associativity).

Definition Date_now : M Z := gets (fun s => now (host s)).

Definition console_write (l : Level) (msg : string) : M unit :=
  modify (fun s =>
    with_host {| now := now (host s);
                 console := console (host s) ++ [{| severity := l; text := msg |}];
                 requests := requests (host s);
                 activeLoaders := activeLoaders (host s);
                 bodyClasses := bodyClasses (host s) |} s).

(** *** LoadingManager *)

Definition safeAddClass (className : string) (element : option (gset string)) :=
  match element with
  | Some classList => Some ({[className]} ∪ classList)
  | None => None
  end.

Definition safeRemoveClass (className : string) (element : option (gset string)) :=
  match element with
  | Some classList => Some (classList ∖ {[className]})
  | None => None
  end.

Definition LoadingManager_updateUI : M unit :=
  modify (fun s =>
    let h := host s in
    let isLoading := negb (bool_decide (size (activeLoaders h) = 0%nat)) in
    with_host {| now := now h; console := console h; requests := requests h;
                 activeLoaders := activeLoaders h;
                 bodyClasses :=
                   if isLoading then safeAddClass "loading" (bodyClasses h)
                   else safeRemoveClass "loading" (bodyClasses h) |} s).

Definition set_activeLoaders (f : gset string -> gset string) : M unit :=
  modify (fun s =>
    let h := host s in
    with_host {| now := now h; console := console h; requests := requests h;
                 activeLoaders := f (activeLoaders h);
                 bodyClasses := bodyClasses h |} s).

Definition LoadingManager_start (id : string) : M unit :=
  set_activeLoaders (fun l => {[id]} ∪ l) ;; LoadingManager_updateUI.

Definition LoadingManager_stop (id : string) : M unit :=
  set_activeLoaders (fun l => l ∖ {[id]}) ;; LoadingManager_updateUI.

(** *** ErrorHandler *)

Definition ErrorHandler_log (error : JsError) (context : string) : M unit :=
  let message :=
    if Js.truthy (Some context) then "[" +:+ context +:+ "] " +:+ error_message error
    else error_message error in
  console_write Error message.

(** *** Cache *)

Definition getCachedData (key : string) : M (option (list RepoSummary)) :=
  let* cached := gets (fun s => cache (this s) !! key) in
  match cached with
  | None => ret None
  | Some cached =>
      let* now := Date_now in
      let isExpired := GITHUB_CONFIG.CACHE_DURATION <? now - timestamp cached in
      if isExpired then
        modify (fun s => with_cache (delete key (cache (this s))) s) ;;
        ret None
      else ret (Some (data cached))
  end.

Definition setCachedData (key : string) (d : list RepoSummary) : M unit :=
  let* now := Date_now in
  modify (fun s =>
    with_cache (<[key := {| data := d; timestamp := now |}]> (cache (this s))) s).

Definition getFallbackRepositories : M (list RepoSummary) :=
  console_write Warn "GitHub API: フォールバックデータを使用" ;;
  ret [].

Definition isLoadingData : M bool := gets (fun s => isLoading (this s)).

Definition clearCache : M unit :=
  modify (with_cache ∅) ;;
  console_write Log "GitHub API: キャッシュをクリアしました".

(** *** The REST call *)

Module Response.
Record t := {
  ok : bool;
  status : Z;
  statusText : string;
  rateLimitRemaining : option string;   (* header X-RateLimit-Remaining *)
  rateLimitReset : option string        (* header X-RateLimit-Reset *)
}.
End Response.
Abbreviation Response := Response.t.

(** What [response.json()] can resolve to, as far as this code can tell
    the values apart. *)
Inductive Json :=
| JNull
| JOther                      (* an object, a number, a string, a boolean *)
| JArray (repos : list Repo).

Inductive FetchReply := FetchRejected | FetchResponse (response : Response).
Inductive JsonReply := JsonRejected | JsonValue (data : Json).

(** [parseInt(s)] for a decimal numeral: [None] is NaN. *)
Module ParseInt.
Definition digit (c : ascii) : option Z :=
  let n := nat_of_ascii c in
  if (48 <=? n)%nat && (n <=? 57)%nat then Some (Z.of_nat (n - 48)) else None.

Fixpoint digits (acc : option Z) (s : string) : option Z :=
  match s with
  | EmptyString => acc
  | String c s' =>
      match digit c with
      | Some d => digits (Some (10 * default 0 acc + d)) s'
      | None => acc
      end
  end.

Definition parseInt (s : string) : option Z :=
  match Js.trimStart s with
  | String "-" s' => Z.opp <$> digits None s'
  | String "+" s' => digits None s'
  | s' => digits None s'
  end.
End ParseInt.

Definition logRateLimit (response : Response) : M unit :=
  let remaining := Response.rateLimitRemaining response in
  let reset := Response.rateLimitReset response in
  if Js.truthy remaining && Js.truthy reset then
    console_write Log
      ("GitHub API Rate Limit: 残り" +:+ default EmptyString remaining +:+ "回") ;;
    match ParseInt.parseInt (default EmptyString remaining) with
    | Some n => if n <? 10 then console_write Warn "GitHub API レート制限に近づいています"
                else ret tt
    | None => ret tt
    end
  else ret tt.

(** Where a call of [getRepositories] is suspended, or how its promise
    settled. *)
Inductive Settlement :=
| Fulfilled (value : list RepoSummary)
| Rejected (error : JsError).

Inductive Pc :=
| AwaitTimer (due : Z)              (* respectRateLimit: awaiting setTimeout *)
| AwaitFetch                        (* awaiting fetch(fullUrl, ...) *)
| AwaitJson (response : Response)   (* awaiting response.json() *)
| Settled (result : Settlement).

(** How a stretch of the [try] block ends: at an [await], or at [return]. *)
Inductive Step :=
| Suspend (pc : Pc)
| Return (value : list RepoSummary).

Definition cacheKey : string := "user-repositories".

Section Client.

Variable parseURL : string -> option URL.

(** [respectRateLimit], the part after the timer (or without one). *)
Definition respectRateLimit_record : M unit :=
  let* now := Date_now in
  modify (with_lastRequestTime now).

(** [fetchUserRepositories] from the end of [respectRateLimit] to the
    call of [fetch]. *)
Definition fetchUserRepositories_send : M Step :=
  console_write Log "GitHub API: リクエストURL" ;;
  modify (fun s =>
    let h := host s in
    with_host {| now := now h; console := console h;
                 requests := requests h ++ [now h];
                 activeLoaders := activeLoaders h;
                 bodyClasses := bodyClasses h |} s) ;;
  ret (Suspend AwaitFetch).

(** [respectRateLimit] up to its [await]. *)
Definition respectRateLimit : M Step :=
  let* now := Date_now in
  let* last := gets (fun s => lastRequestTime (this s)) in
  let timeSinceLastRequest := now - last in
  if timeSinceLastRequest <? GITHUB_CONFIG.RATE_LIMIT_DELAY then
    let waitTime := GITHUB_CONFIG.RATE_LIMIT_DELAY - timeSinceLastRequest in
    ret (Suspend (AwaitTimer (now + waitTime)))
  else
    respectRateLimit_record ;;
    fetchUserRepositories_send.

(** The [try] block of [getRepositories] up to its first [await]. *)
Definition getRepositories_try : M Step :=
  console_write Log "GitHub API: リポジトリ取得開始" ;;
  let* cachedData := getCachedData cacheKey in
  match cachedData with
  | Some cachedData =>
      console_write Log "GitHub API: キャッシュからデータを取得" ;;
      ret (Return cachedData)
  | None =>
      modify (with_isLoading true) ;;
      LoadingManager_start "github-repos" ;;
      console_write Log "GitHub API: API呼び出し実行中..." ;;
      respectRateLimit
  end.

(** After the timer of [respectRateLimit] fired. *)
Definition after_timer : M Step :=
  respectRateLimit_record ;;
  fetchUserRepositories_send.

(** After [fetch] settled. *)
Definition after_fetch (reply : FetchReply) : M Step :=
  match reply with
  | FetchRejected => throw FetchFailed
  | FetchResponse response =>
      console_write Log "GitHub API: レスポンス" ;;
      if negb (Response.ok response) then
        throw (HttpError (Response.status response) (Response.statusText response))
      else
        logRateLimit response ;;
        ret (Suspend (AwaitJson response))
  end.

(** [repos.filter(...)]... on whatever the body was. *)
Definition processRepositories_dyn (repos : Json) : M (list RepoSummary) :=
  match repos with
  | JArray repos => ret (processRepositories parseURL repos)
  | _ => throw (TypeError "repos.filter is not a function")
  end.

(** After [response.json()] settled: the rest of
    [fetchUserRepositories] and of the [try] block. *)
Definition after_json (reply : JsonReply) : M Step :=
  match reply with
  | JsonRejected => throw JsonSyntaxError
  | JsonValue data =>
      match data with
      | JNull => throw (TypeError "Cannot read properties of null (reading 'length')")
      | _ => ret tt
      end ;;
      console_write Log "GitHub API: JSON解析完了" ;;
      let repos := data in
      console_write Log "GitHub API: 生データ取得完了" ;;
      let* processedRepos := processRepositories_dyn repos in
      console_write Log "GitHub API: データ加工完了" ;;
      setCachedData cacheKey processedRepos ;;
      console_write Log
        ("GitHub API: " +:+ pretty (length processedRepos) +:+ "件のリポジトリを取得") ;;
      ret (Return processedRepos)
  end.

Definition getRepositories_catch (error : JsError) : M (list RepoSummary) :=
  console_write Error "GitHub API エラー:" ;;
  ErrorHandler_log error "GitHub API リポジトリ取得" ;;
  getFallbackRepositories.

Definition getRepositories_finally : M unit :=
  modify (with_isLoading false) ;;
  LoadingManager_stop "github-repos".

(** [try { body } catch (error) { ... } finally { ... }] around one
    stretch of the body: the handlers run when the stretch returns or
    throws, not when it suspends. *)
Definition try_catch_finally (body : M Step) : State -> Pc * State :=
  fun s =>
    match body s with
    | (Ok (Suspend pc), s1) => (pc, s1)
    | (Ok (Return v), s1) =>
        match getRepositories_finally s1 with
        | (Ok _, s2) => (Settled (Fulfilled v), s2)
        | (Throw e, s2) => (Settled (Rejected e), s2)
        end
    | (Throw error, s1) =>
        let (r, s2) := getRepositories_catch error s1 in
        match getRepositories_finally s2 with
        | (Ok _, s3) =>
            match r with
            | Ok v => (Settled (Fulfilled v), s3)
            | Throw e => (Settled (Rejected e), s3)
            end
        | (Throw e, s3) => (Settled (Rejected e), s3)
        end
    end.

(** The environment of one call run to completion: how late the timer
    fires, how long the network takes, and what it answers. *)
Record Oracle := {
  timer_late : N;
  fetch_latency : N;
  fetch_reply : FetchReply;
  json_latency : N;
  json_reply : JsonReply
}.

(** Resume a suspended call at its [await], with the replies of [o]:
    the clock moves on to the moment the awaited promise settles. *)
Definition resume (o : Oracle) (pc : Pc) (s : State) : Pc * State :=
  match pc with
  | AwaitTimer due =>
      try_catch_finally after_timer
        (advance (due - now (host s) + Z.of_N (timer_late o)) s)
  | AwaitFetch =>
      try_catch_finally (after_fetch (fetch_reply o))
        (advance (Z.of_N (fetch_latency o)) s)
  | AwaitJson _ =>
      try_catch_finally (after_json (json_reply o))
        (advance (Z.of_N (json_latency o)) s)
  | Settled _ => (pc, s)
  end.

(** [await githubApi.getRepositories()]: one call run to completion with
    nothing else interleaved.  The body has three [await]s and no loop,
    so three resumptions settle it. *)
Definition getRepositories (o : Oracle) (s : State) : Pc * State :=
  let (pc0, s0) := try_catch_finally getRepositories_try s in
  let (pc1, s1) := resume o pc0 s0 in
  let (pc2, s2) := resume o pc1 s1 in
  resume o pc2 s2.

End Client.


(** ** Calls that overlap: the event loop

    A call of [getRepositories] runs until it has to wait for a timer or
    for the network, and is resumed when the awaited promise settles;
    between two such stretches other calls may run.  An [await] on a
    promise that is settled already (the return of an inner async
    function) continues within the same turn and does not end a stretch:
    what runs in between, the rest of the caller's synchronous code,
    touches nothing the continuation reads.  Synchronous code takes no
    time: the clock moves between events only. *)

Inductive Reply :=
| TimerFired
| FetchSettled (reply : FetchReply)
| JsonSettled (reply : JsonReply).

Inductive Event :=
| Call                          (* githubApi.getRepositories() *)
| CallClearCache                (* githubApi.clearCache() *)
| CallIsLoadingData             (* githubApi.isLoadingData() *)
| Tick (d : N)                  (* time passes *)
| Wake (i : nat) (r : Reply).   (* the promise awaited by call [i] settles *)

Record System := {
  state : State;
  calls : list Pc     (* the calls of getRepositories made so far *)
}.

Section EventLoop.

Variable parseURL : string -> option URL.

(** Resume a call at its [await]; a timer does not fire early. *)
Definition wake (pc : Pc) (r : Reply) (s : State) : option (Pc * State) :=
  match pc, r with
  | AwaitTimer due, TimerFired =>
      if due <=? now (host s) then Some (try_catch_finally after_timer s) else None
  | AwaitFetch, FetchSettled reply =>
      Some (try_catch_finally (after_fetch reply) s)
  | AwaitJson _, JsonSettled reply =>
      Some (try_catch_finally (after_json parseURL reply) s)
  | _, _ => None
  end.

Definition step (e : Event) (sys : System) : option System :=
  match e with
  | Call =>
      let (pc, s) := try_catch_finally getRepositories_try (state sys) in
      Some {| state := s; calls := calls sys ++ [pc] |}
  | CallClearCache =>
      Some {| state := snd (clearCache (state sys)); calls := calls sys |}
  | CallIsLoadingData =>
      Some {| state := snd (isLoadingData (state sys)); calls := calls sys |}
  | Tick d =>
      Some {| state := advance (Z.of_N d) (state sys); calls := calls sys |}
  | Wake i r =>
      match calls sys !! i with
      | Some pc =>
          match wake pc r (state sys) with
          | Some (pc', s) => Some {| state := s; calls := <[i := pc']> (calls sys) |}
          | None => None
          end
      | None => None
      end
  end.

Fixpoint run (es : list Event) (sys : System) : option System :=
  match es with
  | [] => Some sys
  | e :: es' =>
      match step e sys with
      | Some sys' => run es' sys'
      | None => None
      end
  end.

(** ** Calls made one after the other *)

Inductive Op :=
| OpGetRepositories (o : Oracle)   (* await githubApi.getRepositories() *)
| OpClearCache
| OpIsLoadingData
| OpElapse (d : N).                (* time passes between two calls *)

Definition perform (s : State) (op : Op) : State :=
  match op with
  | OpGetRepositories o => snd (getRepositories parseURL o s)
  | OpClearCache => snd (clearCache s)
  | OpIsLoadingData => snd (isLoadingData s)
  | OpElapse d => advance (Z.of_N d) s
  end.

Definition perform_all (ops : list Op) (s : State) : State :=
  fold_left perform ops s.

End EventLoop.

(** A page load: a fresh client, the clock at [t0]. *)
Definition initial_host (t0 : Z) : Host :=
  {| now := t0; console := []; requests := []; activeLoaders := ∅;
     bodyClasses := Some ∅ |}.

Definition initial_state (t0 : Z) : State :=
  {| this := new_GitHubApiClient; host := initial_host t0 |}.

(** ** DOM helpers of the utility module *)

Module Dom.

Definition Element := nat.

(** A document, as far as selector queries go: the elements matching a
    selector in document order, [None] when the selector does not
    parse. *)
Record Document := { matching : string -> option (list Element) }.

(** The Selectors grammar has no empty selector list: on a conforming
    document the empty string does not parse. *)
Definition conforming (document : Document) : Prop :=
  matching document EmptyString = None.

Definition querySelector (document : Document) (selector : string)
  : Result (option Element) :=
  match matching document selector with
  | Some l => Ok (head l)
  | None => Throw (SelectorSyntaxError selector)
  end.

Definition querySelectorAll (document : Document) (selector : string)
  : Result (list Element) :=
  match matching document selector with
  | Some l => Ok l
  | None => Throw (SelectorSyntaxError selector)
  end.

(** The helpers return their result (or the exception that escapes)
    and what they wrote to the console. *)
Definition safeQuerySelector (document : Document) (selector : string)
  : Result (option Element) * list ConsoleEntry :=
  match querySelector document selector with
  | Ok element => (Ok element, [])
  | Throw error =>
      (Ok None, [{| severity := Warn; text := "無効なセレクター: " +:+ selector |}])
  end.

Definition safeQuerySelectorAll (document : Document) (selector : string)
  : Result (list Element) * list ConsoleEntry :=
  match querySelectorAll document selector with
  | Ok elements => (Ok elements, [])
  | Throw error =>
      (querySelectorAll document EmptyString,
       [{| severity := Warn; text := "無効なセレクター: " +:+ selector |}])
  end.

(** A document for examples: three elements, class and id selectors. *)
Definition example_document : Document :=
  {| matching := fun selector =>
       if String.eqb selector ".header" then Some [0%nat]
       else if String.eqb selector ".header__nav-link" then Some [1%nat; 2%nat]
       else if String.eqb selector "#missing" then Some []
       else None |}.

End Dom.

(** ** Rendering the skills section ([js/main.js]) *)

Module Main.

Record Skill := {
  name : string;
  level : string;
  icon : string;
  description : string
}.

Record Category := {
  category : string;
  skills : list Skill
}.

Definition NO_SKILLS : string := "スキル情報がありません".

Definition dq : string := String (ascii_of_nat 34) EmptyString.
Definition nl : string := String (ascii_of_nat 10) EmptyString.

Fixpoint indent (n : nat) : string :=
  match n with
  | O => EmptyString
  | S n' => String " " (indent n')
  end.

(** [escapeHtml]: the serialization of a text node ([div.textContent = str;
    div.innerHTML]) replaces the ampersand, the two angle brackets and the
    no-break space (bytes 194 160 in UTF-8); quotes are left as they are. *)
Definition escape_char (c : ascii) : option string :=
  if Ascii.eqb c "&" then Some "&amp;"
  else if Ascii.eqb c "<" then Some "&lt;"
  else if Ascii.eqb c ">" then Some "&gt;"
  else None.

Definition is_nbsp (c1 c2 : ascii) : bool :=
  (nat_of_ascii c1 =? 194)%nat && (nat_of_ascii c2 =? 160)%nat.

Fixpoint escapeHtml (str : string) : string :=
  match str with
  | EmptyString => EmptyString
  | String c rest =>
      match escape_char c with
      | Some e => e +:+ escapeHtml rest
      | None =>
          match rest with
          | String c2 rest2 =>
              if is_nbsp c c2 then "&nbsp;" +:+ escapeHtml rest2
              else String c (escapeHtml rest)
          | EmptyString => String c EmptyString
          end
      end
  end.

(** [isEmpty] on an array *)
Definition isEmpty {A} (obj : list A) : bool :=
  match obj with [] => true | _ => false end.

Definition levelMap : list (string * string) :=
  [("beginner", "基礎"); ("intermediate", "中級"); ("advanced", "上級")].

(** The members every object literal inherits from Object.prototype. *)
Definition inheritedKeys : list string :=
  ["constructor"; "__proto__"; "hasOwnProperty"; "isPrototypeOf";
   "propertyIsEnumerable"; "toLocaleString"; "toString"; "valueOf";
   "__defineGetter__"; "__defineSetter__"; "__lookupGetter__";
   "__lookupSetter__"].

(** The fixed parts of the two template literals, line breaks and
    indentation included. *)
Definition card0 : string :=
  nl +:+ indent 32 +:+ "<div class=" +:+ dq +:+ "skill-card skill-card--".
Definition card1 : string := dq +:+ " data-skill=" +:+ dq.
Definition card2 : string :=
  dq +:+ ">" +:+ nl +:+ indent 36
  +:+ "<div class=" +:+ dq +:+ "skill-card__icon" +:+ dq +:+ ">" +:+ nl +:+ indent 40.
Definition card3 : string :=
  nl +:+ indent 36 +:+ "</div>" +:+ nl +:+ indent 36
  +:+ "<div class=" +:+ dq +:+ "skill-card__content" +:+ dq +:+ ">" +:+ nl +:+ indent 40
  +:+ "<h4 class=" +:+ dq +:+ "skill-card__name" +:+ dq +:+ ">".
Definition card4 : string :=
  "</h4>" +:+ nl +:+ indent 40
  +:+ "<p class=" +:+ dq +:+ "skill-card__description" +:+ dq +:+ ">".
Definition card5 : string :=
  "</p>" +:+ nl +:+ indent 40
  +:+ "<span class=" +:+ dq +:+ "skill-card__level skill-card__level--".
Definition card6 : string := dq +:+ ">" +:+ nl +:+ indent 44.
Definition card7 : string :=
  nl +:+ indent 40 +:+ "</span>" +:+ nl +:+ indent 36 +:+ "</div>"
  +:+ nl +:+ indent 32 +:+ "</div>" +:+ nl +:+ indent 28.

Definition block0 : string :=
  nl +:+ indent 20 +:+ "<div class=" +:+ dq +:+ "skills__category" +:+ dq
  +:+ " data-category=" +:+ dq.
Definition block1 : string :=
  dq +:+ ">" +:+ nl +:+ indent 24
  +:+ "<h3 class=" +:+ dq +:+ "skills__category-title" +:+ dq +:+ ">".
Definition block2 : string :=
  "</h3>" +:+ nl +:+ indent 24
  +:+ "<div class=" +:+ dq +:+ "skills__list" +:+ dq +:+ ">" +:+ nl +:+ indent 28.
Definition block3 : string :=
  nl +:+ indent 24 +:+ "</div>" +:+ nl +:+ indent 20 +:+ "</div>"
  +:+ nl +:+ indent 16.

Section Render.

(** What a template literal prints for the inherited member of the
    given name (the source text of a native function: it depends on
    the engine). *)
Variable inheritedText : string -> string.

Definition getLevelText (level : string) : string :=
  match assoc level levelMap with
  | Some text => text
  | None =>
      if Js.array_includes inheritedKeys level then inheritedText level
      else level
  end.

(** [arr.join('')] *)
Definition join (parts : list string) : string :=
  fold_right String.append EmptyString parts.

(** The inner template literal: one skill card. *)
Definition skillCard (skill : Skill) : string :=
  card0 +:+ escapeHtml (level skill)
  +:+ card1 +:+ escapeHtml (name skill)
  +:+ card2 +:+ icon skill
  +:+ card3 +:+ escapeHtml (name skill)
  +:+ card4 +:+ escapeHtml (description skill)
  +:+ card5 +:+ escapeHtml (level skill)
  +:+ card6 +:+ getLevelText (level skill)
  +:+ card7.

(** The outer template literal: one category block. *)
Definition categoryBlock (c : Category) : string :=
  block0 +:+ escapeHtml (category c)
  +:+ block1 +:+ escapeHtml (category c)
  +:+ block2 +:+ join (map skillCard (skills c))
  +:+ block3.

(** [renderSkills]: what is assigned to [container.innerHTML] ([None]
    when nothing is assigned) and what is written to the console.
    [container] tells whether [#skillsContent] was found.  The entries
    being records with string fields, nothing in the [try] block can
    throw. *)
Definition renderSkills (container : bool) (skillsData : list Category)
  : option string * list ConsoleEntry :=
  if negb container then
    (None, [{| severity := Warn; text := "Skills container not found" |}])
  else if isEmpty skillsData then
    (Some ("<p class=" +:+ dq +:+ "text-center" +:+ dq +:+ ">" +:+ NO_SKILLS +:+ "</p>"), [])
  else
    let html :=
      fold_left (fun html category => html +:+ categoryBlock category)
        skillsData EmptyString in
    (Some html, []).

End Render.

(** The number of places of [s] where [marker] starts. *)
Fixpoint occurrences (marker s : string) : nat :=
  (if Js.startsWith s marker then 1 else 0) +
  match s with
  | EmptyString => 0
  | String _ s' => occurrences marker s'
  end.

(** [l] runs out while it still agrees with [m]: a match of [m] that
    starts in [l] would have to continue behind it. *)
Fixpoint partial_match (l m : string) : bool :=
  match l, m with
  | EmptyString, String _ _ => true
  | EmptyString, EmptyString => false
  | String a l', String b m' => Ascii.eqb b a && partial_match l' m'
  | String _ _, EmptyString => false
  end.

(** No match of [m] starts in [l] and continues behind it. *)
Fixpoint self_contained (m l : string) : bool :=
  match l with
  | EmptyString => true
  | String _ l' => negb (partial_match l m) && self_contained m l'
  end.

(** A card shows two values without escaping them, the icon and the
    level text: in [plain] data neither holds an opening angle bracket. *)
Definition plain_skill (inheritedText : string -> string) (skill : Skill) : bool :=
  negb (Js.includes (icon skill) "<")
  && negb (Js.includes (getLevelText inheritedText (level skill)) "<").

Definition plain (inheritedText : string -> string) (skillsData : list Category) : bool :=
  forallb (fun c => forallb (plain_skill inheritedText) (skills c)) skillsData.

(** A category whose icon is markup. *)
Definition markupIcon : list Category :=
  [ {| category := "Frontend";
       skills :=
         [ {| name := "HTML5"; level := "advanced";
              icon := "<div class=" +:+ dq +:+ "skills__category" +:+ dq +:+ "></div>";
              description := "markup" |} ] |} ].

(** The text engines print for a native function. *)
Definition nativeText (key : string) : string :=
  "function " +:+ key +:+ "() { [native code] }".

(** The opening tags by which a category block and a skill card are
    recognised in the markup. *)
Definition categoryOpen : string := "<div class=" +:+ dq +:+ "skills__category" +:+ dq.
Definition cardOpen : string := "<div class=" +:+ dq +:+ "skill-card ".

(** The [skillsData] of the site. *)
Definition skillsData : list Category :=
  [ {| category := "Frontend";
       skills :=
         [ {| name := "HTML5"; level := "advanced"; icon := "🌐";
              description := "セマンティックマークアップ、アクセシビリティ対応" |};
           {| name := "CSS3"; level := "advanced"; icon := "🎨";
              description := "レスポンシブ、Grid、Flexbox、アニメーション" |};
           {| name := "JavaScript"; level := "intermediate"; icon := "⚡";
              description := "ES6+、DOM操作、非同期処理" |};
           {| name := "React"; level := "intermediate"; icon := "⚛️";
              description := "コンポーネント設計、フック、状態管理" |} ] |};
    {| category := "Backend & Tools";
       skills :=
         [ {| name := "Node.js"; level := "beginner"; icon := "🟢";
              description := "サーバーサイド開発、Express.js" |};
           {| name := "Git"; level := "intermediate"; icon := "📱";
              description := "バージョン管理、チーム開発、GitHub" |};
           {| name := "VS Code"; level := "advanced"; icon := "🔧";
              description := "拡張機能、デバッグ、効率的な開発" |};
           {| name := "Web Performance"; level := "intermediate"; icon := "🚀";
              description := "最適化、Core Web Vitals、パフォーマンス分析" |} ] |} ].

End Main.

(** ** Notions the specification uses, written down independently of the
       code, to compare the code with *)

(** A list without its repetitions, each element at its first place. *)
Fixpoint first_occurrences (l : list string) : list string :=
  match l with
  | [] => []
  | x :: l' => x :: filter (fun y => y <> x) (first_occurrences l')
  end.

(** "the repository's primary language (when present)" *)
Definition primaryLanguage (repo : Repo) : list string :=
  match language repo with
  | Some l => if decide (l = EmptyString) then [] else [l]
  | None => []
  end.

(** "its technology-related topics" *)
Definition technologyTopics (repo : Repo) : list string :=
  filter (fun topic => Is_true (isTechnologyTopic topic)) (default [] (topics repo)).

(** Demo URL resolution as the specification words it: the trimmed
    homepage when it is a URL on a known hosting-provider domain,
    otherwise the constructed GitHub Pages URL when Pages is judged
    likely, otherwise the trimmed homepage when there is one, otherwise
    null. *)
Definition knownHostingDomains : list string :=
  ["vercel.app"; "vercel.com"; "now.sh"; "netlify.app"; "netlify.com";
   "herokuapp.com"; "github.io"; "pages.dev"; "railway.app"; "surge.sh"].

Definition onKnownHostingDomain (parseURL : string -> option URL) (url : string) : bool :=
  match parseURL url with
  | Some urlObj =>
      existsb (fun domain => Js.endsWith (hostname urlObj) domain) knownHostingDomains
  | None => false
  end.

Definition constructedPagesUrl (repo : Repo) : string :=
  "https://purplehoge.github.io/" +:+ name repo +:+ "/".

Definition demoUrl_as_specified (parseURL : string -> option URL) (repo : Repo)
  : option string :=
  let trimmed := Js.trim (default EmptyString (homepage repo)) in
  if Js.truthy (homepage repo) && onKnownHostingDomain parseURL trimmed then Some trimmed
  else if likelyHasGitHubPages repo then Some (constructedPagesUrl repo)
  else if Js.truthy (Some trimmed) then Some trimmed
  else None.

(** "every entry with featured = true precedes every entry with featured =
    false, and among entries with the same flag the star counts are
    non-increasing", for an entry [a] placed before an entry [b]. *)
Definition in_display_order (a b : RepoSummary) : Prop :=
  (featured b = true -> featured a = true) /\
  (featured a = featured b -> stars (githubData b) <= stars (githubData a)).

(** Consecutive request times at least RATE_LIMIT_DELAY apart. *)
Fixpoint spaced (times : list Z) : Prop :=
  match times with
  | t1 :: (t2 :: _) as rest => GITHUB_CONFIG.RATE_LIMIT_DELAY <= t2 - t1 /\ spaced rest
  | _ => True
  end.

(** The cache holds nothing but, possibly, the one entry of
    [getRepositories]. *)
Definition single_entry (c : gmap string CacheEntry) : Prop :=
  (size c <= 1)%nat /\ forall k, is_Some (c !! k) -> k = cacheKey.

(** The repositories a call would obtain from the network: [None] when
    the request, the status check, the parsing of the body or the
    processing of the data fails. *)
Definition fetched (o : Oracle) : option (list Repo) :=
  match fetch_reply o with
  | FetchRejected => None
  | FetchResponse response =>
      if Response.ok response then
        match json_reply o with
        | JsonValue (JArray repos) => Some repos
        | _ => None
        end
      else None
  end.

(** The cached entry is within its hour. *)
Definition cache_fresh (s : State) : option CacheEntry :=
  match cache (this s) !! cacheKey with
  | Some e =>
      if now (host s) - timestamp e <=? GITHUB_CONFIG.CACHE_DURATION then Some e else None
  | None => None
  end.

(** What calls made one after the other maintain: the requests are
    spaced, and the recorded time is the time of the latest request. *)
Definition rate_invariant (s : State) : Prop :=
  spaced (requests (host s))
  /\ forall t, last (requests (host s)) = Some t -> t = lastRequestTime (this s).

(** A call that is suspended or fulfilled. *)
Definition unrejected (pc : Pc) : Prop :=
  match pc with
  | Settled (Rejected _) => False
  | _ => True
  end.

(** The part of the state the properties below are about. *)
Definition view (s : State) : gmap string CacheEntry * Z * list Z * Z :=
  (cache (this s), lastRequestTime (this s), requests (host s), now (host s)).

(** The three console entries of the [catch] block. *)
Definition failure_diagnostics (error : JsError) : list ConsoleEntry :=
  [ {| severity := Error; text := "GitHub API エラー:" |};
    {| severity := Error;
       text := "[GitHub API リポジトリ取得] " +:+ error_message error |};
    {| severity := Warn; text := "GitHub API: フォールバックデータを使用" |} ].

(** ** Inputs for the examples *)

(** The user site of the account, with no homepage set. *)
Definition userSite : Repo :=
  {| name := "purplehoge.github.io"; fork := false; description := None;
     language := None; topics := None; homepage := None;
     html_url := "https://github.com/purplehoge/purplehoge.github.io";
     stargazers_count := 0; updated_at := "2024-01-01T00:00:00Z";
     created_at := "2024-01-01T00:00:00Z" |}.


(** A first visit: nothing cached, the network down. *)
Definition offline : Oracle :=
  {| timer_late := 0; fetch_latency := 30; fetch_reply := FetchRejected;
     json_latency := 0; json_reply := JsonRejected |}.

Definition page_load : State := initial_state 1700000000000.

Definition portfolioRepo : Repo :=
  {| name := "purplehoge-portfolio"; fork := false;
     description := Some "Portfolio website"; language := Some "HTML";
     topics := Some ["portfolio"; "javascript"]; homepage := None;
     html_url := "https://github.com/purplehoge/purplehoge-portfolio";
     stargazers_count := 2; updated_at := "2024-05-01T00:00:00Z";
     created_at := "2024-01-01T00:00:00Z" |}.

Definition toolRepo : Repo :=
  {| name := "cli-tool"; fork := false; description := None;
     language := Some "Python"; topics := None; homepage := None;
     html_url := "https://github.com/purplehoge/cli-tool";
     stargazers_count := 0; updated_at := "2024-04-01T00:00:00Z";
     created_at := "2024-02-01T00:00:00Z" |}.

Definition okResponse : Response :=
  {| Response.ok := true; Response.status := 200; Response.statusText := "OK";
     Response.rateLimitRemaining := Some "59";
     Response.rateLimitReset := Some "1700003600" |}.

(** The network answers with two repositories after 120 ms. *)
Definition online : Oracle :=
  {| timer_late := 4; fetch_latency := 120; fetch_reply := FetchResponse okResponse;
     json_latency := 5; json_reply := JsonValue (JArray [toolRepo; portfolioRepo]) |}.

(** A state with a cached (empty) list stored at the page load, read
    [age] milliseconds later. *)
Definition cached_state (age : Z) : State :=
  {| this := {| cache := {[ cacheKey := {| data := []; timestamp := 1700000000000 |} ]};
                lastRequestTime := 1700000000000; isLoading := false |};
     host := initial_host (1700000000000 + age) |}.

(** Three calls made in the same turn of a fresh page, then the two
    timers firing one second later. *)
Definition overlapping_schedule : list Event :=
  [Call; Call; Call; Tick 1000; Wake 1 TimerFired; Wake 2 TimerFired].

Definition forkedRepo : Repo :=
  {| name := "some-library"; fork := true; description := None;
     language := Some "JavaScript"; topics := None; homepage := None;
     html_url := "https://github.com/purplehoge/some-library";
     stargazers_count := 7; updated_at := "2024-03-01T00:00:00Z";
     created_at := "2024-03-01T00:00:00Z" |}.

Definition profileRepo : Repo :=
  {| name := "purplehoge"; fork := false; description := None;
     language := None; topics := None; homepage := None;
     html_url := "https://github.com/purplehoge/purplehoge";
     stargazers_count := 1; updated_at := "2024-03-01T00:00:00Z";
     created_at := "2024-03-01T00:00:00Z" |}.

(** The client shows no loading: the flag is down and the loader of
    [getRepositories] is not active. *)
Definition idle (s : State) : Prop :=
  isLoading (this s) = false /\ "github-repos" ∉ activeLoaders (host s).

(** The client shows loading: the flag is up, the loader is active and a
    body that exists carries the class. *)
Definition busy (s : State) : Prop :=
  isLoading (this s) = true
  /\ "github-repos" ∈ activeLoaders (host s)
  /\ forall classList, bodyClasses (host s) = Some classList -> "loading" ∈ classList.

Definition is_settled (pc : Pc) : bool :=
  match pc with Settled _ => true | _ => false end.

(** A repository that [processRepositories] keeps. *)
Definition kept (repo : Repo) : bool :=
  negb (fork repo) && negb (Js.array_includes GITHUB_CONFIG.EXCLUDED_REPOS (name repo)).

(** Two summaries the comparator does not tell apart. *)
Definition same_standing (x y : RepoSummary) : bool :=
  Bool.eqb (featured x) (featured y)
  && (stars (githubData x) =? stars (githubData y)).


(** ** More of the utility module *)


(** *** LoadingManager, the remaining methods *)

Definition LoadingManager_stopAll : M unit :=
  set_activeLoaders (fun _ => ∅) ;; LoadingManager_updateUI.

Definition LoadingManager_isLoading : M bool :=
  gets (fun s => negb (bool_decide (size (activeLoaders (host s)) = 0%nat))).

Inductive LoaderOp :=
| LoaderStart (id : string)
| LoaderStop (id : string)
| LoaderStopAll.

Definition loader_perform (s : State) (op : LoaderOp) : State :=
  match op with
  | LoaderStart id => snd (LoadingManager_start id s)
  | LoaderStop id => snd (LoadingManager_stop id s)
  | LoaderStopAll => snd (LoadingManager_stopAll s)
  end.

(** *** Timers

    [setTimeout] and [clearTimeout] on the table of active timers: a
    handle, the time at which the timer is due and what its callback
    carries.  A delay below zero counts as zero; a timer fires when it is
    due or later, never earlier. *)
Record Timers (P : Type) := {
  active : gmap nat (Z * P);
  next_handle : nat
}.
Arguments active {P} _.
Arguments next_handle {P} _.

Definition setTimeout {P} (clock : Z) (payload : P) (delay : Z) (t : Timers P)
  : nat * Timers P :=
  (next_handle t,
   {| active := <[next_handle t := (clock + Z.max 0 delay, payload)]> (active t);
      next_handle := S (next_handle t) |}).

Definition clearTimeout {P} (handle : option nat) (t : Timers P) : Timers P :=
  match handle with
  | Some h => {| active := delete h (active t); next_handle := next_handle t |}
  | None => t
  end.

(** A timer that may fire now: it is taken off the table. *)
Definition fire {P} (clock : Z) (h : nat) (t : Timers P) : option (P * Timers P) :=
  match active t !! h with
  | Some (due, payload) =>
      if due <=? clock
      then Some (payload, {| active := delete h (active t); next_handle := next_handle t |})
      else None
  | None => None
  end.

(** Times that lie at least [d] apart, one after the other. *)
Fixpoint gaps_at_least (d : Z) (times : list Z) : Prop :=
  match times with
  | t1 :: (t2 :: _) as rest => d <= t2 - t1 /\ gaps_at_least d rest
  | _ => True
  end.

(** *** debounce

    The function [debounce(func, wait)] returns, with the variable
    [timeout] of its closure.  [invoked] and [executed] are traces: the
    calls of the returned function and the calls of [func], each with the
    clock and the arguments. *)
Module Debounce.
Section Debounce.
Context {A : Type}.
Variable wait : Z.

Record Closure := {
  clock : Z;
  timeout : option nat;
  timers : Timers A;       (* the payload of [later] is the [args] it closes over *)
  invoked : list (Z * A);
  executed : list (Z * A)
}.

Definition initial (t0 : Z) : Closure :=
  {| clock := t0; timeout := None;
     timers := {| active := ∅; next_handle := 1 |};
     invoked := []; executed := [] |}.

Inductive Event :=
| Invoke (args : A)     (* executedFunction(...args) *)
| Fire (h : nat)        (* the timer [h] fires: [later] runs *)
| Tick (d : N).

Definition step (e : Event) (c : Closure) : option Closure :=
  match e with
  | Invoke args =>
      let cleared := clearTimeout (timeout c) (timers c) in
      let (h, set) := setTimeout (clock c) args wait cleared in
      Some {| clock := clock c; timeout := Some h; timers := set;
              invoked := invoked c ++ [(clock c, args)];
              executed := executed c |}
  | Fire h =>
      match fire (clock c) h (timers c) with
      | Some (args, rest) =>
          Some {| clock := clock c; timeout := timeout c;
                  timers := clearTimeout (timeout c) rest;
                  invoked := invoked c;
                  executed := executed c ++ [(clock c, args)] |}
      | None => None
      end
  | Tick d =>
      Some {| clock := clock c + Z.of_N d; timeout := timeout c; timers := timers c;
              invoked := invoked c; executed := executed c |}
  end.

Fixpoint run (es : list Event) (c : Closure) : option Closure :=
  match es with
  | [] => Some c
  | e :: es' =>
      match step e c with
      | Some c' => run es' c'
      | None => None
      end
  end.

(** What the closure keeps: a timer on the table is the one [timeout]
    names, and it carries the arguments of the latest call and is due
    [wait] after it. *)
Definition consistent (c : Closure) : Prop :=
  forall h due args,
    active (timers c) !! h = Some (due, args) ->
    timeout c = Some h
    /\ exists t, last (invoked c) = Some (t, args) /\ due = t + Z.max 0 wait.

End Debounce.
End Debounce.

(** *** throttle

    The function [throttle(func, limit)] returns, with the variable
    [inThrottle] of its closure ([undefined] at first, read as false). *)
Module Throttle.
Section Throttle.
Context {A : Type}.
Variable limit : Z.

Record Closure := {
  clock : Z;
  inThrottle : bool;
  timers : Timers unit;
  executed : list (Z * A)
}.

Definition initial (t0 : Z) : Closure :=
  {| clock := t0; inThrottle := false;
     timers := {| active := ∅; next_handle := 1 |}; executed := [] |}.

Inductive Event :=
| Invoke (args : A)     (* the returned function is called *)
| Fire (h : nat)        (* the timer [h] fires: [inThrottle = false] *)
| Tick (d : N).

Definition step (e : Event) (c : Closure) : option Closure :=
  match e with
  | Invoke args =>
      if negb (inThrottle c) then
        let (_, set) := setTimeout (clock c) tt limit (timers c) in
        Some {| clock := clock c; inThrottle := true; timers := set;
                executed := executed c ++ [(clock c, args)] |}
      else Some c
  | Fire h =>
      match fire (clock c) h (timers c) with
      | Some (_, rest) =>
          Some {| clock := clock c; inThrottle := false; timers := rest;
                  executed := executed c |}
      | None => None
      end
  | Tick d =>
      Some {| clock := clock c + Z.of_N d; inThrottle := inThrottle c;
              timers := timers c; executed := executed c |}
  end.

Fixpoint run (es : list Event) (c : Closure) : option Closure :=
  match es with
  | [] => Some c
  | e :: es' =>
      match step e c with
      | Some c' => run es' c'
      | None => None
      end
  end.

(** What the closure keeps. *)
Definition consistent (c : Closure) : Prop :=
  gaps_at_least limit (map fst (executed c))
  /\ if inThrottle c then
       exists h t args,
         active (timers c) = {[ h := (t + Z.max 0 limit, tt) ]}
         /\ last (executed c) = Some (t, args)
     else
       active (timers c) = ∅
       /\ forall t args, last (executed c) = Some (t, args) -> t + limit <= clock c.

End Throttle.
End Throttle.

(** *** shuffleArray

    [Math.random()] is a source of fractions below one: the draw number
    [k] is [num / den]. *)
Record Draw := { num : nat; den : nat; below_one : (num <? den)%nat = true }.

Section Shuffle.
Context {A : Type}.
Variable random : nat -> Draw.

(** [Math.floor(Math.random() * n)] *)
Definition floor_times (r : Draw) (n : nat) : nat := (num r * n / den r)%nat.

(** [[a[i], a[j]] = [a[j], a[i]]]; both indices are in range whenever
    the loop below swaps. *)
Definition swap (i j : nat) (a : list A) : list A :=
  match a !! i, a !! j with
  | Some x, Some y => <[j := x]> (<[i := y]> a)
  | _, _ => a
  end.

(** The loop [for (let i = ...; i > 0; i--)], at index [i], with [k]
    draws made so far. *)
Fixpoint shuffle_from (i k : nat) (shuffled : list A) : list A :=
  match i with
  | O => shuffled
  | S i' =>
      let j := floor_times (random k) (i + 1) in
      shuffle_from i' (S k) (swap i j shuffled)
  end.

Definition shuffleArray (array : list A) : list A :=
  shuffle_from (length array - 1) 0 array.

End Shuffle.

(** ** More of the application ([js/main.js]): the projects section and
       the mobile menu *)

Module App.

(** *** renderProjects *)

Record Project := {
  id : string;
  title : string;
  description : string;
  technologies : list string;
  image : option string;
  demoUrl : option string;
  sourceUrl : option string;
  status : string;
  featured : bool
}.

Definition NO_PROJECTS : string := "プロジェクトがありません".

(** The comparator handed to [sort]: featured projects first. *)
Definition compare_featured (a b : Project) : Z :=
  if featured a && negb (featured b) then -1
  else if negb (featured a) && featured b then 1
  else 0.

Local Abbreviation dq := Main.dq.
Local Abbreviation nl := Main.nl.
Local Abbreviation indent := Main.indent.

(** The fixed parts of the template literal of a project card, line
    breaks and indentation included. *)
Definition article0 : string :=
  nl +:+ indent 16 +:+ "<article class=" +:+ dq +:+ "project-card" +:+ dq
  +:+ " data-project-id=" +:+ dq.
Definition article1 : string :=
  dq +:+ ">" +:+ nl +:+ indent 20
  +:+ "<div class=" +:+ dq +:+ "project-card__image" +:+ dq +:+ ">" +:+ nl +:+ indent 24.
Definition article2 : string := nl +:+ indent 24.
Definition article3 : string :=
  nl +:+ indent 20 +:+ "</div>" +:+ nl +:+ indent 20
  +:+ "<div class=" +:+ dq +:+ "project-card__content" +:+ dq +:+ ">" +:+ nl +:+ indent 24
  +:+ "<h3 class=" +:+ dq +:+ "project-card__title" +:+ dq +:+ ">".
Definition article4 : string :=
  "</h3>" +:+ nl +:+ indent 24
  +:+ "<p class=" +:+ dq +:+ "project-card__description" +:+ dq +:+ ">".
Definition article5 : string :=
  "</p>" +:+ nl +:+ indent 24
  +:+ "<div class=" +:+ dq +:+ "project-card__technologies" +:+ dq +:+ ">"
  +:+ nl +:+ indent 28.
Definition article6 : string :=
  nl +:+ indent 24 +:+ "</div>" +:+ nl +:+ indent 24
  +:+ "<div class=" +:+ dq +:+ "project-card__actions" +:+ dq +:+ ">" +:+ nl +:+ indent 28.
Definition article7 : string := nl +:+ indent 28.
Definition article8 : string :=
  nl +:+ indent 24 +:+ "</div>" +:+ nl +:+ indent 20 +:+ "</div>"
  +:+ nl +:+ indent 16 +:+ "</article>" +:+ nl +:+ indent 12.

Definition img0 : string := "<img src=" +:+ dq.
Definition img1 : string := dq +:+ " alt=" +:+ dq.
Definition img2 : string := dq +:+ " loading=" +:+ dq +:+ "lazy" +:+ dq +:+ ">".
Definition placeholder : string :=
  "<div class=" +:+ dq +:+ "project-card__placeholder" +:+ dq +:+ ">📁</div>".
Definition badge : string :=
  "<div class=" +:+ dq +:+ "project-card__badge" +:+ dq +:+ ">Featured</div>".
Definition tech0 : string := "<span class=" +:+ dq +:+ "project-card__tech" +:+ dq +:+ ">".
Definition tech1 : string := "</span>".
Definition link0 : string := "<a href=" +:+ dq.
Definition link1 (kind label : string) : string :=
  dq +:+ " class=" +:+ dq +:+ "project-card__link project-card__link--" +:+ kind +:+ dq
  +:+ " target=" +:+ dq +:+ "_blank" +:+ dq
  +:+ " rel=" +:+ dq +:+ "noopener noreferrer" +:+ dq +:+ ">" +:+ label +:+ "</a>".
Definition disabled (label : string) : string :=
  "<span class=" +:+ dq +:+ "project-card__link project-card__link--disabled" +:+ dq
  +:+ ">" +:+ label +:+ "準備中</span>".

(** [project.image ? `<img ...>` : `<div ...>`] *)
Definition imagePart (project : Project) : string :=
  if Js.truthy (image project) then
    img0 +:+ Main.escapeHtml (default EmptyString (image project))
    +:+ img1 +:+ Main.escapeHtml (title project) +:+ img2
  else placeholder.

Definition badgePart (project : Project) : string :=
  if featured project then badge else EmptyString.

Definition techSpan (tech : string) : string :=
  tech0 +:+ Main.escapeHtml tech +:+ tech1.

(** [url ? `<a href=...>label</a>` : '<span ...>label準備中</span>'] *)
Definition linkPart (url : option string) (kind label : string) : string :=
  if Js.truthy url then
    link0 +:+ Main.escapeHtml (default EmptyString url) +:+ link1 kind label
  else disabled label.

(** The template literal: one project card. *)
Definition projectCard (project : Project) : string :=
  article0 +:+ Main.escapeHtml (id project)
  +:+ article1 +:+ imagePart project
  +:+ article2 +:+ badgePart project
  +:+ article3 +:+ Main.escapeHtml (title project)
  +:+ article4 +:+ Main.escapeHtml (description project)
  +:+ article5 +:+ Main.join (map techSpan (technologies project))
  +:+ article6 +:+ linkPart (demoUrl project) "primary" "Demo"
  +:+ article7 +:+ linkPart (sourceUrl project) "secondary" "Code"
  +:+ article8.

(** [renderProjects]: what is assigned to [container.innerHTML] ([None]
    when nothing is assigned) and what is written to the console.
    [container] tells whether [#projectsContent] was found.  The
    projects being records with string fields, nothing in the [try]
    block can throw. *)
Definition renderProjects (container : bool) (projectsData : list Project)
  : option string * list ConsoleEntry :=
  if negb container then
    (None, [{| severity := Warn; text := "Projects container not found" |}])
  else if Main.isEmpty projectsData then
    (Some ("<p class=" +:+ dq +:+ "text-center" +:+ dq +:+ ">" +:+ NO_PROJECTS +:+ "</p>"),
     [])
  else
    let sortedProjects := Js.sort compare_featured projectsData in
    (Some (Main.join (map projectCard sortedProjects)), []).

(** The opening tag by which a project card is recognised in the markup. *)
Definition articleOpen : string := "<article class=" +:+ dq +:+ "project-card" +:+ dq.

(** The [projectsData] of the site. *)
Definition projectsData : list Project :=
  [ {| id := "portfolio-website"; title := "ポートフォリオサイト";
       description := "HTML、CSS、JavaScriptで構築したレスポンシブ対応のポートフォリオサイトです。モダンなデザインとアクセシビリティを重視した設計になっています。";
       technologies := ["HTML5"; "CSS3"; "JavaScript"; "GitHub Pages"];
       image := None; demoUrl := None; sourceUrl := None;
       status := "completed"; featured := true |};
    {| id := "sample-project-1"; title := "Webアプリケーション";
       description := "サンプルプロジェクトの説明です。ユーザビリティとパフォーマンスを重視した設計で、レスポンシブデザインに対応しています。";
       technologies := ["HTML"; "CSS"; "JavaScript"; "React"];
       image := None; demoUrl := None; sourceUrl := None;
       status := "completed"; featured := false |};
    {| id := "sample-project-2"; title := "モバイル対応サイト";
       description := "モバイルファーストのアプローチで開発したWebサイトです。タッチ操作とレスポンシブデザインに配慮した実装を行いました。";
       technologies := ["HTML5"; "CSS3"; "JavaScript"];
       image := None; demoUrl := None; sourceUrl := None;
       status := "in-progress"; featured := false |} ].

(** *** The mobile menu

    The part of the application the menu handlers read and write: the
    flag [isMobileMenuOpen] and the three elements cached by
    [cacheElements] (each may be missing from the page), with the class
    list of each and the [aria-expanded] attribute of the menu button.
    The three are different elements of the page. *)
Record Button := {
  classList : gset string;
  aria_expanded : option string
}.

Record Menu := {
  isMobileMenuOpen : bool;
  menuToggle : option Button;
  navList : option (gset string);
  body : option (gset string)
}.

(** A class helper applied to the class list of the menu button. *)
Definition on_classList (f : option (gset string) -> option (gset string))
    (element : option Button) : option Button :=
  match element with
  | Some button =>
      Some {| classList := default (classList button) (f (Some (classList button)));
              aria_expanded := aria_expanded button |}
  | None => None
  end.

(** [if (menuToggle) menuToggle.setAttribute('aria-expanded', value)] *)
Definition set_aria_expanded (value : string) (element : option Button) : option Button :=
  match element with
  | Some button => Some {| classList := classList button; aria_expanded := Some value |}
  | None => None
  end.

Definition openMobileMenu (app : Menu) : Menu :=
  {| isMobileMenuOpen := isMobileMenuOpen app;
     menuToggle :=
       set_aria_expanded "true" (on_classList (safeAddClass "is-open") (menuToggle app));
     navList := safeAddClass "is-open" (navList app);
     body := safeAddClass "menu-open" (body app) |}.

Definition closeMobileMenu (app : Menu) : Menu :=
  {| isMobileMenuOpen := false;
     menuToggle :=
       set_aria_expanded "false" (on_classList (safeRemoveClass "is-open") (menuToggle app));
     navList := safeRemoveClass "is-open" (navList app);
     body := safeRemoveClass "menu-open" (body app) |}.

Definition toggleMobileMenu (app : Menu) : Menu :=
  let app' := {| isMobileMenuOpen := negb (isMobileMenuOpen app);
                 menuToggle := menuToggle app; navList := navList app;
                 body := body app |} in
  if isMobileMenuOpen app' then openMobileMenu app' else closeMobileMenu app'.

(** [handleNavClick], with the [href] attribute of the link clicked
    ([None] when the link has none); the scrolling it starts is no part
    of the menu. *)
Definition handleNavClick (href : option string) (app : Menu) : Menu :=
  if Js.truthy href && Js.startsWith (default EmptyString href) "#"
  then closeMobileMenu app
  else app.

Definition MOBILE_MENU_BREAKPOINT : Z := 768.

(** [handleResize], with [window.innerWidth] at the time it runs. *)
Definition handleResize (innerWidth : Z) (app : Menu) : Menu :=
  if MOBILE_MENU_BREAKPOINT <? innerWidth then closeMobileMenu app else app.

(** [handleKeyDown], with [e.key]. *)
Definition handleKeyDown (key : string) (app : Menu) : Menu :=
  if String.eqb key "Escape" && isMobileMenuOpen app then closeMobileMenu app else app.

(** [initializeUI], as far as the menu goes. *)
Definition initializeUI (app : Menu) : Menu := closeMobileMenu app.

(** The listeners [setupEventListeners] registers that reach the menu:
    the click on the menu button (registered only when the button is on
    the page), the click on a navigation link, the resize handler behind
    its debounce and the key handler. *)
Inductive MenuEvent :=
| ClickMenuToggle
| ClickNavLink (href : option string)
| Resized (innerWidth : Z)
| KeyDown (key : string).

Definition dispatch (app : Menu) (e : MenuEvent) : Menu :=
  match e with
  | ClickMenuToggle =>
      match menuToggle app with
      | Some _ => toggleMobileMenu app
      | None => app
      end
  | ClickNavLink href => handleNavClick href app
  | Resized innerWidth => handleResize innerWidth app
  | KeyDown key => handleKeyDown key app
  end.

(** The page shows what the flag says: the class [is-open] on the menu
    button and on the list, the class [menu-open] on the body, and
    [aria-expanded] on the button. *)
Definition shows (app : Menu) : Prop :=
  let open := isMobileMenuOpen app in
  (forall button, menuToggle app = Some button ->
     bool_decide ("is-open" ∈ classList button) = open
     /\ aria_expanded button = Some (if open then "true" else "false"))
  /\ (forall classes, navList app = Some classes ->
        bool_decide ("is-open" ∈ classes) = open)
  /\ (forall classes, body app = Some classes ->
        bool_decide ("menu-open" ∈ classes) = open).

End App.

(** * Properties *)

Set Warnings "-clear-no-such-hyp".

(** Unfolds the effectful definitions, to run them on a state given field
    by field. *)
Ltac exec :=
  cbv [getRepositories resume wake try_catch_finally getRepositories_try
       getRepositories_catch getRepositories_finally after_timer after_fetch
       after_json processRepositories_dyn respectRateLimit respectRateLimit_record
       fetchUserRepositories_send getCachedData setCachedData
       getFallbackRepositories ErrorHandler_log LoadingManager_start
       LoadingManager_stop LoadingManager_updateUI set_activeLoaders
       console_write Date_now bind ret throw gets modify advance
       with_cache with_lastRequestTime with_isLoading with_host view
       this host cache lastRequestTime isLoading now console requests
       activeLoaders bodyClasses fst snd
       timer_late fetch_latency fetch_reply json_latency json_reply
       fetched cache_fresh clearCache isLoadingData failure_diagnostics].

(** ** Sorting *)

Section SortFacts.
Context {A : Type} (compare : A -> A -> Z).

Lemma sort_insert_perm x l : Permutation (Js.sort_insert compare x l) (x :: l).
Proof.
  induction l as [|y l IH]; simpl; [reflexivity|].
  destruct (0 <? compare x y); [|reflexivity].
  rewrite IH. apply perm_swap.
Qed.

Lemma sort_perm l : Permutation (Js.sort compare l) l.
Proof.
  induction l as [|x l IH]; simpl; [constructor|].
  rewrite sort_insert_perm. by constructor.
Qed.

Hypothesis consistent : Js.compare_consistent compare.

Lemma sort_insert_sorted x l :
  StronglySorted (fun a b => compare a b <= 0) l ->
  StronglySorted (fun a b => compare a b <= 0) (Js.sort_insert compare x l).
Proof using consistent.
  destruct consistent as [Htot Htrans].
  induction 1 as [|y l Hl IH Hy]; simpl.
  - repeat constructor.
  - destruct (0 <? compare x y) eqn:E.
    + apply Z.ltb_lt in E. constructor; [exact IH|].
      eapply Permutation_Forall; [symmetry; apply sort_insert_perm|].
      constructor; [by apply Htot | exact Hy].
    + apply Z.ltb_ge in E. constructor; [by constructor|].
      constructor; [exact E|].
      eapply Forall_impl; [exact Hy|]. intros z Hz. by eapply Htrans.
Qed.

Lemma sort_sorted l : StronglySorted (fun a b => compare a b <= 0) (Js.sort compare l).
Proof using consistent.
  induction l; simpl; [constructor | by apply sort_insert_sorted].
Qed.

(** The sort is stable: the elements of one rank keep the order they
    had. *)
Lemma sort_insert_stable x a l :
  List.filter (Js.same_rank compare x) (Js.sort_insert compare a l)
  = List.filter (Js.same_rank compare x) (a :: l).
Proof using consistent.
  destruct consistent as [Htot Htrans].
  induction l as [|y l IH]; [done|].
  cbn [Js.sort_insert]. destruct (0 <? compare a y) eqn:E; [|done].
  apply Z.ltb_lt in E. cbn [List.filter] in *. rewrite IH.
  destruct (Js.same_rank compare x a) eqn:Ha, (Js.same_rank compare x y) eqn:Hy;
    try done.
  exfalso. unfold Js.same_rank in Ha, Hy.
  apply andb_true_iff in Ha as [Ha1 Ha2]. apply andb_true_iff in Hy as [Hy1 Hy2].
  apply Z.leb_le in Ha1, Ha2, Hy1, Hy2.
  pose proof (Htrans a x y Ha2 Hy1). lia.
Qed.

Lemma sort_stable x l :
  List.filter (Js.same_rank compare x) (Js.sort compare l)
  = List.filter (Js.same_rank compare x) l.
Proof using consistent.
  induction l as [|a l IH]; [done|].
  cbn [Js.sort]. rewrite sort_insert_stable. cbn [List.filter]. by rewrite IH.
Qed.

End SortFacts.

Lemma StronglySorted_lookup {A} (R : A -> A -> Prop) (l : list A) (i j : nat) a b :
  StronglySorted R l -> (i < j)%nat -> l !! i = Some a -> l !! j = Some b -> R a b.
Proof.
  intros Hs. revert i j. induction Hs as [|x l Hl IH Hx]; intros i j Hij Hi Hj.
  - by rewrite lookup_nil in Hi.
  - destruct j as [|j]; [lia|]. simpl in Hj. destruct i as [|i].
    + simpl in Hi. injection Hi as ->.
      rewrite Forall_forall in Hx. apply Hx.
      apply list_elem_of_lookup. eauto.
    + simpl in Hi. apply (IH i j); [lia | done | done].
Qed.

Lemma or_zero_id x : Js.or_zero x = x.
Proof. unfold Js.or_zero. destruct (x =? 0) eqn:E; [apply Z.eqb_eq in E; lia | done]. Qed.

Lemma compare_featured_stars_consistent : Js.compare_consistent compare_featured_stars.
Proof.
  split.
  - intros x y. unfold compare_featured_stars. rewrite !or_zero_id.
    destruct (featured x), (featured y); simpl; lia.
  - intros x y z. unfold compare_featured_stars. rewrite !or_zero_id.
    destruct (featured x), (featured y), (featured z); simpl; lia.
Qed.

Lemma not_after_display_order a b :
  compare_featured_stars a b <= 0 -> in_display_order a b.
Proof.
  unfold compare_featured_stars, in_display_order. rewrite !or_zero_id.
  destruct (featured a), (featured b); simpl; intros H; split; intros; try done; lia.
Qed.

(** ** Membership *)

Lemma array_includes_In (arr : list string) x :
  Js.array_includes arr x = true <-> x ∈ arr.
Proof.
  unfold Js.array_includes. rewrite existsb_exists, list_elem_of_In. split.
  - intros (y & Hy & E). apply String.eqb_eq in E. by subst.
  - intros H. exists x. split; [done | apply String.eqb_refl].
Qed.

(** ** Deduplication *)

Lemma first_occurrences_elem x l : x ∈ first_occurrences l <-> x ∈ l.
Proof.
  induction l as [|y l IH]; simpl; [done|].
  rewrite !elem_of_cons, list_elem_of_filter, IH.
  destruct (decide (x = y)); naive_solver.
Qed.

Lemma first_occurrences_NoDup l : NoDup (first_occurrences l).
Proof.
  induction l as [|y l IH]; simpl; constructor.
  - rewrite list_elem_of_filter. naive_solver.
  - by apply NoDup_filter.
Qed.

Lemma fold_Set_add l : forall acc,
  fold_left Js.Set_add l acc
  = acc ++ filter (fun y => y ∉ acc) (first_occurrences l).
Proof.
  induction l as [|x l IH]; intros acc; simpl.
  - by rewrite filter_nil, app_nil_r.
  - rewrite IH. unfold Js.Set_add. case_bool_decide as Hx.
    + rewrite filter_cons_False by naive_solver.
      rewrite list_filter_filter. f_equal. apply list_filter_iff.
      intros y. split; [|naive_solver]. intros Hy. split; [done|].
      intros ->. done.
    + rewrite filter_cons_True by done.
      rewrite <- app_assoc. simpl. do 2 f_equal.
      rewrite list_filter_filter. apply list_filter_iff.
      intros y. rewrite elem_of_app, list_elem_of_singleton. naive_solver.
Qed.

Lemma new_Set_first_occurrences l : Js.new_Set l = first_occurrences l.
Proof.
  unfold Js.new_Set. rewrite fold_Set_add. simpl.
  induction (first_occurrences l) as [|y k IH]; [done|].
  rewrite filter_cons_True by apply not_elem_of_nil. by rewrite IH.
Qed.

Lemma collectTechnologies_parts repo :
  collectTechnologies repo = primaryLanguage repo ++ technologyTopics repo.
Proof.
  unfold collectTechnologies, primaryLanguage, technologyTopics, Js.truthy.
  assert (Hl : (if match language repo with
                   | Some s => negb (String.eqb s EmptyString)
                   | None => false
                   end
                then [] ++ [default EmptyString (language repo)] else [])
               = match language repo with
                 | Some l => if decide (l = EmptyString) then [] else [l]
                 | None => []
                 end).
  { destruct (language repo) as [l|]; [|done]. simpl.
    destruct (decide (l = EmptyString)) as [->|Hne]; [done|].
    apply String.eqb_neq in Hne. by rewrite Hne. }
  rewrite Hl. destruct (topics repo) as [[|t ts]|]; simpl; by rewrite ?app_nil_r.
Qed.

(** C10. extractTechnologies returns at most six names: the primary
    language (when present) followed by the technology-related topics,
    with repetitions removed (each name kept at its first place) before
    the names are normalized, cut after the sixth. *)
Theorem extractTechnologies_spec (repo : Repo) :
  let candidates := primaryLanguage repo ++ technologyTopics repo in
  extractTechnologies repo
  = take 6 (map normalizeTechnologyName (first_occurrences candidates))
  /\ (length (extractTechnologies repo) <= 6)%nat
  /\ NoDup (first_occurrences candidates)
  /\ (forall t, t ∈ first_occurrences candidates <-> t ∈ candidates).
Proof.
  intros candidates. split; [|split; [|split]].
  - unfold extractTechnologies.
    by rewrite new_Set_first_occurrences, collectTechnologies_parts.
  - unfold extractTechnologies. rewrite length_take. lia.
  - apply first_occurrences_NoDup.
  - intros t. apply first_occurrences_elem.
Qed.

(** Removing repetitions before normalizing leaves the repetitions that
    normalization creates. *)
Example extractTechnologies_normalized_twice :
  extractTechnologies
    {| name := "app"; fork := false; description := None;
       language := Some "JavaScript"; topics := Some ["javascript"; "css"];
       homepage := None; html_url := "https://github.com/purplehoge/app";
       stargazers_count := 0; updated_at := "2024-01-01T00:00:00Z";
       created_at := "2024-01-01T00:00:00Z" |}
  = [TStr "JavaScript"; TStr "JavaScript"; TStr "CSS"].
Proof. reflexivity. Qed.

(** ** processRepositories *)

Lemma processRepositories_perm parseURL repos :
  Permutation (processRepositories parseURL repos)
    (map (summarize parseURL)
       (List.filter (fun repo => negb (fork repo))
          (List.filter
             (fun repo => negb (Js.array_includes GITHUB_CONFIG.EXCLUDED_REPOS (name repo)))
             repos))).
Proof. apply sort_perm. Qed.

(** C8. Every element of the list returned by processRepositories is the
    summary of an input repository that is not a fork and whose name is
    not in EXCLUDED_REPOS; so no excluded name and no fork appears in the
    output. *)
Theorem processRepositories_filtered parseURL (repos : list Repo) (s : RepoSummary) :
  s ∈ processRepositories parseURL repos ->
  exists repo,
    repo ∈ repos /\ s = summarize parseURL repo /\ title s = name repo
    /\ fork repo = false
    /\ (name repo ∉ GITHUB_CONFIG.EXCLUDED_REPOS)
    /\ title s <> "purplehoge" /\ title s <> "README".
Proof.
  intros Hs. rewrite processRepositories_perm in Hs.
  apply list_elem_of_In, in_map_iff in Hs as (repo & <- & Hin).
  apply filter_In in Hin as [Hin Hfork].
  apply filter_In in Hin as [Hin Hexcl].
  apply negb_true_iff in Hfork, Hexcl.
  assert (Hnot : name repo ∉ GITHUB_CONFIG.EXCLUDED_REPOS).
  { intros H. apply array_includes_In in H. congruence. }
  exists repo. repeat split; try done.
  - by apply list_elem_of_In.
  - simpl. intros E. apply Hnot. rewrite E. set_solver.
  - simpl. intros E. apply Hnot. rewrite E. set_solver.
Qed.

(** C9. In the list returned by processRepositories an entry placed
    before another is never a non-featured one before a featured one, and
    of two entries with the same featured flag the earlier has at least
    as many stars. *)
Theorem processRepositories_ordered parseURL (repos : list Repo) (i j : nat)
    (a b : RepoSummary) :
  (i < j)%nat ->
  processRepositories parseURL repos !! i = Some a ->
  processRepositories parseURL repos !! j = Some b ->
  in_display_order a b.
Proof.
  intros Hij Hi Hj. apply not_after_display_order.
  eapply (StronglySorted_lookup (fun a b => compare_featured_stars a b <= 0));
    [|exact Hij|exact Hi|exact Hj].
  apply sort_sorted, compare_featured_stars_consistent.
Qed.

(** ** Demo URL resolution *)

(** C2, as stated, fails on the user site: nothing marks it as likely to
    have GitHub Pages, so the specified resolution is null, while the code
    answers the root of the user site. *)
Lemma getDemoUrl_user_site :
  getDemoUrl SimpleURL.parse userSite = Some "https://purplehoge.github.io/"
  /\ demoUrl_as_specified SimpleURL.parse userSite = None.
Proof. split; reflexivity. Qed.

(** Two more places where the code is more specific than the sentence: a
    provider domain other than Vercel's counts only over http(s), and a
    homepage of white space only is no homepage. *)
Example getDemoUrl_non_http_provider :
  let repo :=
    {| name := "my-site"; fork := false; description := None; language := None;
       topics := None; homepage := Some "ftp://files.netlify.app/";
       html_url := "https://github.com/purplehoge/my-site"; stargazers_count := 0;
       updated_at := "2024-01-01T00:00:00Z"; created_at := "2024-01-01T00:00:00Z" |} in
  getDemoUrl SimpleURL.parse repo = Some "https://purplehoge.github.io/my-site/"
  /\ demoUrl_as_specified SimpleURL.parse repo = Some "ftp://files.netlify.app/".
Proof. split; reflexivity. Qed.

Example getDemoUrl_blank_homepage :
  let repo :=
    {| name := "tool"; fork := false; description := None; language := None;
       topics := None; homepage := Some "   ";
       html_url := "https://github.com/purplehoge/tool"; stargazers_count := 0;
       updated_at := "2024-01-01T00:00:00Z"; created_at := "2024-01-01T00:00:00Z" |} in
  getDemoUrl SimpleURL.parse repo = None.
Proof. reflexivity. Qed.

Example getDemoUrl_vercel :
  let repo :=
    {| name := "app"; fork := false; description := None; language := Some "HTML";
       topics := None; homepage := Some "  https://app.vercel.app/  ";
       html_url := "https://github.com/purplehoge/app"; stargazers_count := 0;
       updated_at := "2024-01-01T00:00:00Z"; created_at := "2024-01-01T00:00:00Z" |} in
  getDemoUrl SimpleURL.parse repo = Some "https://app.vercel.app/".
Proof. reflexivity. Qed.

Lemma getGitHubPagesUrl_cases repo :
  getGitHubPagesUrl repo =
    if String.eqb (name repo) "purplehoge.github.io" then Some "https://purplehoge.github.io/"
    else if likelyHasGitHubPages repo then Some (constructedPagesUrl repo)
    else None.
Proof. reflexivity. Qed.

(** C2, amended.  Demo URL resolution returns the trimmed homepage when it
    parses as a URL whose host ends in a Vercel domain, or as an http(s)
    URL whose host ends in one of the other provider domains; otherwise,
    for the repository named purplehoge.github.io, the root of the user
    site; otherwise the constructed GitHub Pages URL when Pages is judged
    likely; otherwise the trimmed homepage when it is not empty; otherwise
    null. *)
Theorem getDemoUrl_resolution parseURL (repo : Repo) :
  let trimmed := Js.trim (default EmptyString (homepage repo)) in
  getDemoUrl parseURL repo =
    if Js.truthy (homepage repo)
       && (isVercelUrl parseURL trimmed || isValidDeployUrl parseURL trimmed)
    then Some trimmed
    else if String.eqb (name repo) "purplehoge.github.io"
    then Some "https://purplehoge.github.io/"
    else if likelyHasGitHubPages repo then Some (constructedPagesUrl repo)
    else if negb (String.eqb trimmed EmptyString) then Some trimmed
    else None.
Proof.
  intros trimmed. unfold getDemoUrl. fold trimmed.
  rewrite getGitHubPagesUrl_cases.
  destruct (Js.truthy (homepage repo)) eqn:Hh; simpl.
  - destruct (isVercelUrl parseURL trimmed); simpl; [done|].
    destruct (isValidDeployUrl parseURL trimmed); simpl; [done|].
    destruct (String.eqb (name repo) _); [done|].
    destruct (likelyHasGitHubPages repo); done.
  - destruct (String.eqb (name repo) _); [done|].
    destruct (likelyHasGitHubPages repo); [done|].
    assert (trimmed = EmptyString) as ->; [|done].
    unfold trimmed. destruct (homepage repo) as [h|]; [|done].
    simpl in Hh. apply negb_false_iff, String.eqb_eq in Hh. by subst.
Qed.

(** The provider test of the code is the specified one on http(s) URLs. *)
Lemma deploy_tests_on_http parseURL url urlObj :
  parseURL url = Some urlObj ->
  protocol urlObj = "http:" \/ protocol urlObj = "https:" ->
  isVercelUrl parseURL url || isValidDeployUrl parseURL url
  = onKnownHostingDomain parseURL url.
Proof.
  intros Hp Hproto. unfold isVercelUrl, isValidDeployUrl, onKnownHostingDomain.
  rewrite Hp.
  assert (Js.array_includes ["http:"; "https:"] (protocol urlObj) = true) as ->.
  { apply array_includes_In. destruct Hproto as [-> | ->]; set_solver. }
  simpl. by rewrite !orb_false_r, <- !orb_assoc.
Qed.

(** ** The client, stretch by stretch *)

Lemma logRateLimit_console response s :
  exists entries,
    logRateLimit response s
    = (Ok tt,
       with_host {| now := now (host s); console := console (host s) ++ entries;
                    requests := requests (host s);
                    activeLoaders := activeLoaders (host s);
                    bodyClasses := bodyClasses (host s) |} s).
Proof.
  destruct s as [c h]. unfold logRateLimit.
  destruct (Js.truthy _ && Js.truthy _).
  - destruct (ParseInt.parseInt _) as [n|]; [destruct (n <? 10)|].
    + eexists [_; _]. exec. by rewrite <- app_assoc.
    + eexists [_]. reflexivity.
    + eexists [_]. reflexivity.
  - exists []. destruct h. exec. by rewrite app_nil_r.
Qed.

(** From the call to the first [await]. *)
Lemma start_effect s :
  let r := try_catch_finally getRepositories_try s in
  match cache_fresh s with
  | Some e => fst r = Settled (Fulfilled (data e)) /\ view (snd r) = view s
  | None =>
      let c' := delete cacheKey (cache (this s)) in
      let t := now (host s) in
      let last := lastRequestTime (this s) in
      if t - last <? GITHUB_CONFIG.RATE_LIMIT_DELAY then
        fst r = AwaitTimer (t + (GITHUB_CONFIG.RATE_LIMIT_DELAY - (t - last)))
        /\ view (snd r) = (c', last, requests (host s), t)
      else
        fst r = AwaitFetch
        /\ view (snd r) = (c', t, requests (host s) ++ [t], t)
  end.
Proof.
  destruct s as [[c l b] [n k r a bc]]. exec.
  destruct (c !! cacheKey) as [e|] eqn:Hc.
  - destruct (n - timestamp e <=? GITHUB_CONFIG.CACHE_DURATION) eqn:Hage.
    + assert ((GITHUB_CONFIG.CACHE_DURATION <? n - timestamp e) = false) as -> by lia.
      done.
    + assert ((GITHUB_CONFIG.CACHE_DURATION <? n - timestamp e) = true) as -> by lia.
      destruct (n - l <? GITHUB_CONFIG.RATE_LIMIT_DELAY); done.
  - rewrite (delete_id c cacheKey Hc).
    destruct (n - l <? GITHUB_CONFIG.RATE_LIMIT_DELAY); done.
Qed.

(** After the timer fired. *)
Lemma timer_effect s :
  let r := try_catch_finally after_timer s in
  let t := now (host s) in
  fst r = AwaitFetch
  /\ view (snd r) = (cache (this s), t, requests (host s) ++ [t], t).
Proof. destruct s as [[c l b] [n k r a bc]]. by exec. Qed.

(** After [fetch] settled. *)
Lemma fetch_effect reply s :
  let r := try_catch_finally (after_fetch reply) s in
  view (snd r) = view s /\
  match reply with
  | FetchRejected =>
      fst r = Settled (Fulfilled [])
      /\ console (host (snd r)) = console (host s) ++ failure_diagnostics FetchFailed
  | FetchResponse response =>
      if Response.ok response then fst r = AwaitJson response
      else
        fst r = Settled (Fulfilled [])
        /\ exists pre,
            console (host (snd r))
            = pre ++ failure_diagnostics
                       (HttpError (Response.status response) (Response.statusText response))
  end.
Proof.
  destruct s as [[c l b] [n k r a bc]], reply as [|response].
  - exec. split; [done|]. split; [done|]. by rewrite <- !app_assoc.
  - cbv [try_catch_finally after_fetch bind console_write modify].
    destruct (Response.ok response); simpl.
    + match goal with |- context [logRateLimit ?r ?s] =>
        destruct (logRateLimit_console r s) as [entries ->] end.
      by exec.
    + exec. split; [done|]. split; [done|].
      exists (k ++ [{| severity := Log; text := "GitHub API: レスポンス" |}]).
      by rewrite <- !app_assoc.
Qed.

(** After [response.json()] settled. *)
Lemma json_effect parseURL reply s :
  let r := try_catch_finally (after_json parseURL reply) s in
  match reply with
  | JsonValue (JArray repos) =>
      let processed := processRepositories parseURL repos in
      fst r = Settled (Fulfilled processed)
      /\ view (snd r)
         = (<[cacheKey := {| data := processed; timestamp := now (host s) |}]>
              (cache (this s)),
            lastRequestTime (this s), requests (host s), now (host s))
  | _ =>
      fst r = Settled (Fulfilled []) /\ view (snd r) = view s
      /\ exists pre error,
          console (host (snd r)) = pre ++ failure_diagnostics error
  end.
Proof.
  destruct s as [[c l b] [n k r a bc]], reply as [|[| |repos]]; exec.
  - split; [done|]. split; [done|]. exists k, JsonSyntaxError.
    by rewrite <- !app_assoc.
  - split; [done|]. split; [done|]. eexists k, (TypeError _).
    by rewrite <- !app_assoc.
  - split; [done|]. split; [done|].
    eexists (k ++ [{| severity := Log; text := "GitHub API: JSON解析完了" |};
                   {| severity := Log; text := "GitHub API: 生データ取得完了" |}]),
            (TypeError _).
    by rewrite <- !app_assoc.
  - done.
Qed.

Lemma advance_view d s :
  view (advance d s)
  = (cache (this s), lastRequestTime (this s), requests (host s), now (host s) + d).
Proof. reflexivity. Qed.

Lemma view_inv s c l r n :
  view s = (c, l, r, n) ->
  cache (this s) = c /\ lastRequestTime (this s) = l /\ requests (host s) = r
  /\ now (host s) = n.
Proof. unfold view. intros H. by injection H. Qed.

(** A call that awaits [fetch], resumed to the end. *)
Lemma resume_fetch_effect parseURL o s :
  let r1 := resume parseURL o AwaitFetch s in
  let r2 := resume parseURL o (fst r1) (snd r1) in
  exists result, fst r2 = Settled (Fulfilled result) /\
  match fetched o with
  | Some repos =>
      let t := now (host s) + Z.of_N (fetch_latency o) + Z.of_N (json_latency o) in
      let processed := processRepositories parseURL repos in
      result = processed
      /\ view (snd r2)
         = (<[cacheKey := {| data := processed; timestamp := t |}]> (cache (this s)),
            lastRequestTime (this s), requests (host s), t)
  | None =>
      result = []
      /\ cache (this (snd r2)) = cache (this s)
      /\ lastRequestTime (this (snd r2)) = lastRequestTime (this s)
      /\ requests (host (snd r2)) = requests (host s)
      /\ exists pre error,
          console (host (snd r2)) = pre ++ failure_diagnostics error
  end.
Proof.
  intros r1 r2. subst r2 r1. unfold fetched.
  set (s1 := advance (Z.of_N (fetch_latency o)) s).
  pose proof (fetch_effect (fetch_reply o) s1) as H1. cbv zeta in H1.
  change (resume parseURL o AwaitFetch s)
    with (try_catch_finally (after_fetch (fetch_reply o)) s1).
  destruct (try_catch_finally (after_fetch (fetch_reply o)) s1) as [pc1 s1'].
  simpl fst in *. simpl snd in *. destruct H1 as [Hv1 H1].
  apply view_inv in Hv1 as (Hc1 & Hl1 & Hr1 & Hn1). simpl in Hc1, Hl1, Hr1, Hn1.
  destruct (fetch_reply o) as [|response].
  - destruct H1 as [-> Hk]. simpl. exists []. repeat split; try done. eauto.
  - destruct (Response.ok response).
    + subst pc1.
      set (s2 := advance (Z.of_N (json_latency o)) s1').
      pose proof (json_effect parseURL (json_reply o) s2) as H2. cbv zeta in H2.
      change (resume parseURL o (AwaitJson response) s1')
        with (try_catch_finally (after_json parseURL (json_reply o)) s2).
      destruct (try_catch_finally (after_json parseURL (json_reply o)) s2) as [pc2 s2'].
      simpl fst in *. simpl snd in *.
      destruct (json_reply o) as [|[| |repos]].
      1-3: destruct H2 as (-> & Hv2 & Hk); exists [];
           apply view_inv in Hv2 as (Hc2 & Hl2 & Hr2 & Hn2);
           simpl in Hc2, Hl2, Hr2; repeat split; [congruence..|done].
      destruct H2 as [-> Hv2]. eexists. split; [done|]. split; [done|].
      rewrite Hv2. simpl. by rewrite Hc1, Hl1, Hr1, Hn1.
    + destruct H1 as [-> [pre Hk]]. simpl. exists []. repeat split; try done. eauto.
Qed.

(** One call, from the call to the settlement. *)
Lemma getRepositories_effect parseURL o s :
  let r := getRepositories parseURL o s in
  match cache_fresh s with
  | Some e => fst r = Settled (Fulfilled (data e)) /\ view (snd r) = view s
  | None =>
      let last := lastRequestTime (this s) in
      let t :=
        if now (host s) - last <? GITHUB_CONFIG.RATE_LIMIT_DELAY
        then last + GITHUB_CONFIG.RATE_LIMIT_DELAY + Z.of_N (timer_late o)
        else now (host s) in
      lastRequestTime (this (snd r)) = t
      /\ requests (host (snd r)) = requests (host s) ++ [t]
      /\ match fetched o with
         | Some repos =>
             let processed := processRepositories parseURL repos in
             fst r = Settled (Fulfilled processed)
             /\ cache (this (snd r))
                = <[cacheKey := {| data := processed; timestamp := now (host (snd r)) |}]>
                    (cache (this s))
             /\ now (host (snd r))
                = t + Z.of_N (fetch_latency o) + Z.of_N (json_latency o)
         | None =>
             fst r = Settled (Fulfilled [])
             /\ cache (this (snd r)) = delete cacheKey (cache (this s))
             /\ exists pre error,
                 console (host (snd r)) = pre ++ failure_diagnostics error
         end
  end.
Proof.
  intros r. subst r. unfold getRepositories.
  pose proof (start_effect s) as H0. cbv zeta in H0.
  destruct (try_catch_finally getRepositories_try s) as [pc0 s0].
  simpl fst in *. simpl snd in *.
  destruct (cache_fresh s) as [e|].
  { destruct H0 as [-> Hv]. done. }
  destruct (now (host s) - lastRequestTime (this s) <? GITHUB_CONFIG.RATE_LIMIT_DELAY).
  - destruct H0 as [-> Hv0].
    apply view_inv in Hv0 as (Hc0 & Hl0 & Hr0 & Hn0).
    set (due := now (host s) + (GITHUB_CONFIG.RATE_LIMIT_DELAY
                                - (now (host s) - lastRequestTime (this s)))).
    set (s1 := advance (due - now (host s0) + Z.of_N (timer_late o)) s0).
    pose proof (timer_effect s1) as H1. cbv zeta in H1.
    change (resume parseURL o (AwaitTimer due) s0) with (try_catch_finally after_timer s1).
    destruct (try_catch_finally after_timer s1) as [pc1 s1'].
    simpl fst in *. simpl snd in *. destruct H1 as [-> Hv1].
    apply view_inv in Hv1 as (Hc1 & Hl1 & Hr1 & Hn1).
    simpl in Hc1, Hl1, Hr1, Hn1.
    assert (Ht : now (host s0) + (due - now (host s0) + Z.of_N (timer_late o))
                 = lastRequestTime (this s) + GITHUB_CONFIG.RATE_LIMIT_DELAY
                   + Z.of_N (timer_late o)) by (unfold due; lia).
    rewrite Ht in *. clear Ht.
    pose proof (resume_fetch_effect parseURL o s1') as H2. cbv zeta in H2.
    destruct (resume parseURL o AwaitFetch s1') as [pc2 s2]. simpl fst in *. simpl snd in *.
    destruct (resume parseURL o pc2 s2) as [pc3 s3]. simpl fst in *. simpl snd in *.
    destruct H2 as (result & -> & H2).
    destruct (fetched o) as [repos|].
    + destruct H2 as [-> Hv3]. apply view_inv in Hv3 as (Hc3 & Hl3 & Hr3 & Hn3).
      repeat split; try congruence.
      rewrite Hc3, Hc1, Hc0, insert_delete_eq. congruence.
    + destruct H2 as (-> & Hc3 & Hl3 & Hr3 & Hk).
      repeat split; try congruence. 
  - destruct H0 as [-> Hv0].
    apply view_inv in Hv0 as (Hc0 & Hl0 & Hr0 & Hn0).
    pose proof (resume_fetch_effect parseURL o s0) as H2. cbv zeta in H2.
    destruct (resume parseURL o AwaitFetch s0) as [pc2 s2]. simpl fst in *. simpl snd in *.
    destruct (resume parseURL o pc2 s2) as [pc3 s3]. simpl fst in *. simpl snd in *.
    destruct H2 as (result & -> & H2). simpl.
    destruct (fetched o) as [repos|].
    + destruct H2 as [-> Hv3]. apply view_inv in Hv3 as (Hc3 & Hl3 & Hr3 & Hn3).
      repeat split; try congruence.
      rewrite Hc3, Hc0, insert_delete_eq. congruence.
    + destruct H2 as (-> & Hc3 & Hl3 & Hr3 & Hk).
      repeat split; try congruence.
Qed.

(** ** getRepositories *)

(** C1. A call of getRepositories always settles and never rejects; when
    nothing fresh is cached and the request, the status check, the parsing
    of the body or the processing fails, it is fulfilled with the empty
    fallback list, and all that is left of the error are the entries the
    catch block wrote to the console. *)
Theorem getRepositories_never_rejects parseURL (o : Oracle) (s : State) :
  (exists value, fst (getRepositories parseURL o s) = Settled (Fulfilled value))
  /\ (cache_fresh s = None -> fetched o = None ->
      fst (getRepositories parseURL o s) = Settled (Fulfilled [])
      /\ exists pre error,
          console (host (snd (getRepositories parseURL o s)))
          = pre ++ failure_diagnostics error).
Proof.
  pose proof (getRepositories_effect parseURL o s) as H. cbv zeta in H. split.
  - destruct (cache_fresh s) as [e|]; [destruct H as [H _]; eauto|].
    destruct H as (_ & _ & H).
    destruct (fetched o); destruct H as [H _]; eauto.
  - intros Hfresh Hfetched. rewrite Hfresh, Hfetched in H.
    destruct H as (_ & _ & H1 & _ & H2). done.
Qed.

(** No stretch of a call ends in a rejection, whatever it is interleaved
    with. *)
Lemma start_settles s error :
  fst (try_catch_finally getRepositories_try s) <> Settled (Rejected error).
Proof.
  pose proof (start_effect s) as H. cbv zeta in H.
  destruct (cache_fresh s); [destruct H as [-> _]; done|].
  destruct (_ <? _); destruct H as [-> _]; done.
Qed.

Lemma wake_settles parseURL pc r s pc' s' error :
  wake parseURL pc r s = Some (pc', s') -> pc' <> Settled (Rejected error).
Proof.
  destruct pc as [due| |response|result], r as [|reply|reply]; simpl; try done.
  - destruct (due <=? now (host s)); [|done]. intros [= E].
    pose proof (timer_effect s) as [H _]. rewrite E in H. simpl in H. by subst.
  - intros [= E]. pose proof (fetch_effect reply s) as [_ H]. cbv zeta in H.
    rewrite E in H. simpl in H.
    destruct reply as [|response]; [destruct H as [-> _]; done|].
    destruct (Response.ok response); [by subst | destruct H as [-> _]; done].
  - intros [= E]. pose proof (json_effect parseURL reply s) as H. cbv zeta in H.
    rewrite E in H. simpl in H.
    destruct reply as [|[| |repos]]; destruct H as [-> _]; done.
Qed.

Lemma step_never_rejects parseURL e sys sys' :
  step parseURL e sys = Some sys' ->
  Forall unrejected (calls sys) -> Forall unrejected (calls sys').
Proof.
  destruct sys as [s cs]. destruct e as [| | |d|i r]; simpl.
  - pose proof (start_settles s) as Hpc.
    destruct (try_catch_finally getRepositories_try s) as [pc s1].
    intros [= <-] Hcs. simpl. apply Forall_app. split; [done|].
    constructor; [|done]. destruct pc as [| | |[|error]]; try done.
    by destruct (Hpc error).
  - by intros [= <-].
  - by intros [= <-].
  - by intros [= <-].
  - destruct (cs !! i) as [pc|]; [|done].
    destruct (wake parseURL pc r s) as [[pc' s1]|] eqn:E; [|done].
    intros [= <-] Hcs. simpl. apply Forall_insert; [done|].
    destruct pc' as [| | |[|error]]; try done.
    by destruct (wake_settles _ _ _ _ _ _ error E).
Qed.

(** In no run of the event loop does a call of getRepositories end
    rejected. *)
Lemma run_never_rejects parseURL es : forall sys sys',
  run parseURL es sys = Some sys' ->
  Forall unrejected (calls sys) -> Forall unrejected (calls sys').
Proof.
  induction es as [|e es IH]; intros sys sys'; simpl.
  - by intros [= <-].
  - destruct (step parseURL e sys) as [sys1|] eqn:E; [|done].
    intros Hrun Hcs. eapply IH; [exact Hrun|]. by eapply step_never_rejects.
Qed.

(** C3. With an entry cached under the key of getRepositories: while its
    age (the clock minus the stored timestamp) is at most CACHE_DURATION
    the cached list is returned, no request is made and the cache is left
    as it is; once the age exceeds CACHE_DURATION the entry is deleted and
    one request is made, and when that request succeeds the processed
    list is returned and stored with the clock of that moment as its
    timestamp. *)
Theorem getRepositories_cache parseURL (o : Oracle) (s : State) (e : CacheEntry) :
  cache (this s) !! cacheKey = Some e ->
  let age := now (host s) - timestamp e in
  let r := getRepositories parseURL o s in
  (age <= 3600000 ->
     fst r = Settled (Fulfilled (data e))
     /\ requests (host (snd r)) = requests (host s)
     /\ cache (this (snd r)) = cache (this s))
  /\ (3600000 < age ->
      (exists t, requests (host (snd r)) = requests (host s) ++ [t])
      /\ cache (this (snd (try_catch_finally getRepositories_try s))) !! cacheKey = None
      /\ match fetched o with
         | Some repos =>
             fst r = Settled (Fulfilled (processRepositories parseURL repos))
             /\ cache (this (snd r)) !! cacheKey
                = Some {| data := processRepositories parseURL repos;
                          timestamp := now (host (snd r)) |}
         | None => cache (this (snd r)) !! cacheKey = None
         end).
Proof.
  intros He age r. subst r.
  pose proof (getRepositories_effect parseURL o s) as H. cbv zeta in H.
  pose proof (start_effect s) as H0. cbv zeta in H0.
  unfold cache_fresh in H, H0. rewrite He in H, H0. fold age in H, H0.
  change GITHUB_CONFIG.CACHE_DURATION with 3600000 in H, H0. split.
  - intros Hage. assert ((age <=? 3600000) = true) as Hb by lia. rewrite Hb in H.
    destruct H as [H Hv]. apply view_inv in Hv as (Hc & _ & Hr & _). done.
  - intros Hage. assert ((age <=? 3600000) = false) as Hb by lia. rewrite Hb in H, H0.
    destruct H as (_ & Hr & H). split; [eauto|]. split.
    + destruct (_ <? _); destruct H0 as [_ Hv]; apply view_inv in Hv as (-> & _);
        apply lookup_delete_eq.
    + destruct (fetched o) as [repos|].
      * destruct H as (Hres & -> & _). split; [done|]. apply lookup_insert_eq.
      * destruct H as (_ & -> & _). apply lookup_delete_eq.
Qed.

(** Without an entry a request is made as well. *)
Lemma getRepositories_uncached parseURL o s :
  cache (this s) !! cacheKey = None ->
  exists t,
    requests (host (snd (getRepositories parseURL o s))) = requests (host s) ++ [t].
Proof.
  intros Hc. pose proof (getRepositories_effect parseURL o s) as H. cbv zeta in H.
  unfold cache_fresh in H. rewrite Hc in H. destruct H as (_ & Hr & _). eauto.
Qed.

(** ** The cache holds one entry at most *)

Lemma single_entry_dom (c : gmap string CacheEntry) :
  single_entry c <-> dom c ⊆ {[cacheKey]}.
Proof.
  unfold single_entry. split.
  - intros [_ Hk] k Hin. apply elem_of_dom in Hin. apply Hk in Hin. set_solver.
  - intros Hd. split.
    + rewrite <- size_dom. etrans; [by apply subseteq_size|]. by rewrite size_singleton.
    + intros k Hin. apply elem_of_dom in Hin. set_solver.
Qed.

Lemma single_entry_empty : single_entry ∅.
Proof. apply single_entry_dom. by rewrite dom_empty_L. Qed.

Lemma single_entry_insert c e : single_entry c -> single_entry (<[cacheKey := e]> c).
Proof. rewrite !single_entry_dom, dom_insert_L. set_solver. Qed.

Lemma single_entry_delete c k : single_entry c -> single_entry (delete k c).
Proof. rewrite !single_entry_dom, dom_delete_L. set_solver. Qed.

Lemma getRepositories_single_entry parseURL o s :
  single_entry (cache (this s)) ->
  single_entry (cache (this (snd (getRepositories parseURL o s)))).
Proof.
  intros Hs. pose proof (getRepositories_effect parseURL o s) as H. cbv zeta in H.
  destruct (cache_fresh s).
  - destruct H as [_ Hv]. apply view_inv in Hv as (-> & _). done.
  - destruct H as (_ & _ & H). destruct (fetched o).
    + destruct H as (_ & -> & _). by apply single_entry_insert.
    + destruct H as (_ & -> & _). by apply single_entry_delete.
Qed.

Lemma perform_single_entry parseURL op s :
  single_entry (cache (this s)) -> single_entry (cache (this (perform parseURL s op))).
Proof.
  destruct op as [o| | |d]; simpl; intros Hs.
  - by apply getRepositories_single_entry.
  - apply single_entry_empty.
  - done.
  - done.
Qed.

(** C4. In every state reached from a new client by a sequence of calls
    of getRepositories, clearCache and isLoadingData (with any replies of
    the network and any time passing in between) the cache has at most one
    entry, and an entry it has is stored under the key
    'user-repositories'. *)
Theorem cache_single_entry parseURL (t0 : Z) (ops : list (Op)) :
  let c := cache (this (perform_all parseURL ops (initial_state t0))) in
  (size c <= 1)%nat /\ forall k, is_Some (c !! k) -> k = "user-repositories".
Proof.
  cbv zeta. change (single_entry (cache (this (perform_all parseURL ops (initial_state t0))))).
  assert (Hgen : forall s, single_entry (cache (this s)) ->
                           single_entry (cache (this (perform_all parseURL ops s)))).
  { induction ops as [|op ops IH]; intros s Hs; simpl; [done|].
    apply IH. by apply perform_single_entry. }
  apply Hgen. apply single_entry_empty.
Qed.

(** The same holds when the calls overlap. *)
Lemma step_single_entry parseURL e sys sys' :
  step parseURL e sys = Some sys' ->
  single_entry (cache (this (state sys))) -> single_entry (cache (this (state sys'))).
Proof.
  destruct sys as [s cs]. destruct e as [| | |d|i r]; simpl.
  - pose proof (start_effect s) as H. cbv zeta in H.
    destruct (try_catch_finally getRepositories_try s) as [pc s1]. simpl in H.
    intros [= <-] Hs. simpl.
    destruct (cache_fresh s); [destruct H as [_ Hv]|destruct (_ <? _); destruct H as [_ Hv]];
      apply view_inv in Hv as (-> & _); try done; by apply single_entry_delete.
  - intros [= <-] _. apply single_entry_empty.
  - by intros [= <-].
  - by intros [= <-].
  - destruct (cs !! i) as [pc|]; [|done].
    destruct pc as [due| |response|result], r as [|reply|reply]; simpl; try done.
    + destruct (due <=? now (host s)); [|done].
      pose proof (timer_effect s) as [_ Hv].
      destruct (try_catch_finally after_timer s) as [pc s1].
      intros [= <-] Hs. simpl in *. by apply view_inv in Hv as (-> & _).
    + pose proof (fetch_effect reply s) as [Hv _].
      destruct (try_catch_finally (after_fetch reply) s) as [pc s1].
      intros [= <-] Hs. simpl in *. by apply view_inv in Hv as (-> & _).
    + pose proof (json_effect parseURL reply s) as H. cbv zeta in H.
      destruct (try_catch_finally (after_json parseURL reply) s) as [pc s1].
      intros [= <-] Hs. simpl in *.
      destruct reply as [|[| |repos]].
      1-3: destruct H as (_ & Hv & _); by apply view_inv in Hv as (-> & _).
      destruct H as [_ Hv]. apply view_inv in Hv as (-> & _).
      by apply single_entry_insert.
Qed.

Lemma run_single_entry parseURL es : forall sys sys',
  run parseURL es sys = Some sys' ->
  single_entry (cache (this (state sys))) -> single_entry (cache (this (state sys'))).
Proof.
  induction es as [|e es IH]; intros sys sys'; simpl.
  - by intros [= <-].
  - destruct (step parseURL e sys) as [sys1|] eqn:E; [|done].
    intros Hrun Hs. eapply IH; [exact Hrun|]. by eapply step_single_entry.
Qed.

(** ** Rate limiting *)

Lemma spaced_snoc (times : list Z) (t : Z) :
  spaced times ->
  (forall t0, last times = Some t0 -> t0 + GITHUB_CONFIG.RATE_LIMIT_DELAY <= t) ->
  spaced (times ++ [t]).
Proof.
  induction times as [|t1 [|t2 rest] IH]; intros Hs Hl.
  - done.
  - simpl. split; [|done]. specialize (Hl t1 eq_refl). lia.
  - destruct Hs as [H12 Hs]. split; [exact H12|].
    apply IH; [exact Hs|]. intros t0 H0. apply Hl. exact H0.
Qed.

Lemma getRepositories_rate_invariant parseURL o s :
  rate_invariant s -> rate_invariant (snd (getRepositories parseURL o s)).
Proof.
  intros [Hs Hl]. pose proof (getRepositories_effect parseURL o s) as H. cbv zeta in H.
  destruct (cache_fresh s).
  - destruct H as [_ Hv]. apply view_inv in Hv as (_ & Hl' & Hr' & _).
    unfold rate_invariant. by rewrite Hl', Hr'.
  - destruct H as (Hl' & Hr' & _). unfold rate_invariant. rewrite Hl', Hr'. split.
    + apply spaced_snoc; [exact Hs|]. intros t0 H0. apply Hl in H0. subst t0.
      destruct (_ <? _) eqn:E; lia.
    + intros t. rewrite last_snoc. by intros [= <-].
Qed.

Lemma perform_rate_invariant parseURL op s :
  rate_invariant s -> rate_invariant (perform parseURL s op).
Proof.
  destruct op as [o| | |d]; simpl; [apply getRepositories_rate_invariant|done..].
Qed.

Lemma perform_all_rate_invariant parseURL ops : forall s,
  rate_invariant s -> rate_invariant (perform_all parseURL ops s).
Proof.
  induction ops as [|op ops IH]; intros s Hs; simpl; [done|].
  apply IH. by apply perform_rate_invariant.
Qed.

(** C5, as stated, fails when calls overlap: three calls made in the same
    turn on a fresh page start their requests at 1700000000000,
    1700000001000 and 1700000001000; the two calls that waited read the
    same recorded time and are released together. *)
Lemma overlapping_calls_not_spaced :
  exists sys,
    run SimpleURL.parse overlapping_schedule {| state := page_load; calls := [] |}
    = Some sys
    /\ requests (host (state sys)) = [1700000000000; 1700000001000; 1700000001000]
    /\ ~ spaced (requests (host (state sys))).
Proof.
  eexists. split; [vm_compute; reflexivity|]. split; [reflexivity|].
  simpl. unfold GITHUB_CONFIG.RATE_LIMIT_DELAY. lia.
Qed.

(** C5, amended.  Before a request, when less than RATE_LIMIT_DELAY has
    passed since the recorded time of the previous one, the call sets a
    timer for exactly the remaining difference, and otherwise sends at
    once; a call sends at most one request, whether it fails or not; and
    when the calls are made one after the other (each settled before the
    next is made) the start times of consecutive requests are at least
    RATE_LIMIT_DELAY apart. *)
Theorem rate_limit_sequential parseURL (t0 : Z) (ops : list Op) :
  let s := perform_all parseURL ops (initial_state t0) in
  let elapsed := now (host s) - lastRequestTime (this s) in
  spaced (requests (host s))
  /\ (forall o, exists sent,
        requests (host (snd (getRepositories parseURL o s))) = requests (host s) ++ sent
        /\ (length sent <= 1)%nat)
  /\ (cache_fresh s = None ->
      fst (try_catch_finally getRepositories_try s)
      = if elapsed <? 1000 then AwaitTimer (now (host s) + (1000 - elapsed))
        else AwaitFetch).
Proof.
  intros s elapsed. split; [|split].
  - apply (perform_all_rate_invariant parseURL ops (initial_state t0)).
    split; [done|]. by intros t.
  - intros o. pose proof (getRepositories_effect parseURL o s) as H. cbv zeta in H.
    destruct (cache_fresh s).
    + destruct H as [_ Hv]. apply view_inv in Hv as (_ & _ & Hr & _).
      exists []. rewrite app_nil_r. split; [done|simpl; lia].
    + destruct H as (_ & Hr & _). eexists [_]. split; [exact Hr|simpl; lia].
  - intros Hfresh. pose proof (start_effect s) as H. cbv zeta in H.
    rewrite Hfresh in H. fold elapsed in H.
    change GITHUB_CONFIG.RATE_LIMIT_DELAY with 1000 in H.
    destruct (elapsed <? 1000); by destruct H as [-> _].
Qed.

(** ** The two ways of running a call agree

    Resuming a call with the replies of an oracle is waking it in the
    event loop at the moment the awaited promise settles. *)
Lemma resume_as_wake parseURL (o : Oracle) (pc : Pc) (s : State) :
  match pc with
  | AwaitTimer due =>
      now (host s) <= due ->
      wake parseURL pc TimerFired
        (advance (due - now (host s) + Z.of_N (timer_late o)) s)
      = Some (resume parseURL o pc s)
  | AwaitFetch =>
      wake parseURL pc (FetchSettled (fetch_reply o))
        (advance (Z.of_N (fetch_latency o)) s)
      = Some (resume parseURL o pc s)
  | AwaitJson _ =>
      wake parseURL pc (JsonSettled (json_reply o))
        (advance (Z.of_N (json_latency o)) s)
      = Some (resume parseURL o pc s)
  | Settled _ => resume parseURL o pc s = (pc, s)
  end.
Proof.
  destruct pc as [due| |response|result]; try reflexivity.
  intros Hdue. unfold wake, resume.
  assert ((due <=? now (host (advance (due - now (host s) + Z.of_N (timer_late o)) s)))
          = true) as ->; [|done].
  apply Z.leb_le. simpl. lia.
Qed.

(** A timer is always set for a later moment. *)
Lemma start_timer_later s due :
  fst (try_catch_finally getRepositories_try s) = AwaitTimer due ->
  now (host (snd (try_catch_finally getRepositories_try s))) < due.
Proof.
  pose proof (start_effect s) as H. cbv zeta in H.
  destruct (cache_fresh s); [destruct H as [-> _]; done|].
  destruct (_ <? _) eqn:E; destruct H as [-> Hv]; [|done].
  apply view_inv in Hv as (_ & _ & _ & ->). intros [= <-]. lia.
Qed.

Lemma resume_never_timer parseURL o pc s due :
  fst (resume parseURL o pc s) <> AwaitTimer due.
Proof.
  destruct pc as [due0| |response|result]; unfold resume.
  - pose proof (timer_effect (advance (due0 - now (host s) + Z.of_N (timer_late o)) s))
      as [H _]. by rewrite H.
  - pose proof (fetch_effect (fetch_reply o) (advance (Z.of_N (fetch_latency o)) s))
      as [_ H]. cbv zeta in H.
    destruct (fetch_reply o) as [|response]; [destruct H as [-> _]; done|].
    destruct (Response.ok response); [by rewrite H | destruct H as [-> _]; done].
  - pose proof (json_effect parseURL (json_reply o) (advance (Z.of_N (json_latency o)) s))
      as H. cbv zeta in H.
    destruct (json_reply o) as [|[| |repos]]; destruct H as [-> _]; done.
  - done.
Qed.

Lemma run_app parseURL es1 : forall es2 sys,
  run parseURL (es1 ++ es2) sys
  = match run parseURL es1 sys with
    | Some sys' => run parseURL es2 sys'
    | None => None
    end.
Proof.
  induction es1 as [|e es1 IH]; intros es2 sys; simpl; [done|].
  destruct (step parseURL e sys); [apply IH | done].
Qed.

(** One resumption of the only call is a clock tick and a wake-up (or
    nothing, for a settled call). *)
Lemma resume_is_run parseURL o pc s :
  (forall due, pc = AwaitTimer due -> now (host s) <= due) ->
  exists es,
    run parseURL es {| state := s; calls := [pc] |}
    = Some {| state := snd (resume parseURL o pc s);
              calls := [fst (resume parseURL o pc s)] |}.
Proof.
  intros Hdue. pose proof (resume_as_wake parseURL o pc s) as H.
  destruct pc as [due| |response|result].
  - specialize (Hdue due eq_refl). specialize (H Hdue).
    exists [Tick (Z.to_N (due - now (host s) + Z.of_N (timer_late o))); Wake 0 TimerFired].
    cbn [run step state calls lookup list_lookup].
    rewrite Z2N.id by lia. rewrite H.
    by destruct (resume parseURL o (AwaitTimer due) s).
  - exists [Tick (fetch_latency o); Wake 0 (FetchSettled (fetch_reply o))].
    cbn [run step state calls lookup list_lookup]. rewrite H.
    by destruct (resume parseURL o AwaitFetch s).
  - exists [Tick (json_latency o); Wake 0 (JsonSettled (json_reply o))].
    cbn [run step state calls lookup list_lookup]. rewrite H.
    by destruct (resume parseURL o (AwaitJson response) s).
  - exists []. by rewrite H.
Qed.

(** A call run to completion is one run of the event loop in which
    nothing else happens. *)
Lemma getRepositories_is_run parseURL o s :
  exists es,
    run parseURL (Call :: es) {| state := s; calls := [] |}
    = Some {| state := snd (getRepositories parseURL o s);
              calls := [fst (getRepositories parseURL o s)] |}.
Proof.
  unfold getRepositories.
  pose proof (start_timer_later s) as Hlater.
  destruct (try_catch_finally getRepositories_try s) as [pc0 s0] eqn:E0.
  simpl in Hlater.
  destruct (resume_is_run parseURL o pc0 s0) as [es1 H1].
  { intros due ->. specialize (Hlater due eq_refl). lia. }
  pose proof (resume_never_timer parseURL o pc0 s0) as Hn1.
  destruct (resume parseURL o pc0 s0) as [pc1 s1]. simpl in *.
  destruct (resume_is_run parseURL o pc1 s1) as [es2 H2].
  { intros due ->. by destruct (Hn1 due). }
  pose proof (resume_never_timer parseURL o pc1 s1) as Hn2.
  destruct (resume parseURL o pc1 s1) as [pc2 s2]. simpl in *.
  destruct (resume_is_run parseURL o pc2 s2) as [es3 H3].
  { intros due ->. by destruct (Hn2 due). }
  exists (es1 ++ es2 ++ es3).
  cbn [run step state calls]. rewrite E0. cbn [app].
  rewrite run_app, H1. cbv beta iota. rewrite run_app, H2. cbv beta iota. exact H3.
Qed.

(** ** DOM helpers *)

(** safeQuerySelector never lets the exception out: when the query
    throws it writes one warning and returns null. *)
Lemma safeQuerySelector_safe document selector :
  (exists element, fst (Dom.safeQuerySelector document selector) = Ok element)
  /\ (Dom.matching document selector = None ->
      Dom.safeQuerySelector document selector
      = (Ok None, [{| severity := Warn; text := "無効なセレクター: " +:+ selector |}])).
Proof.
  unfold Dom.safeQuerySelector, Dom.querySelector.
  destruct (Dom.matching document selector); split; eauto; done.
Qed.

(** C6: what the code does for safeQuerySelectorAll.  On a selector the
    document rejects, the catch block writes the warning and then queries
    the empty selector, which a conforming document rejects as well: the
    SyntaxError of that second query propagates to the caller. *)
Theorem safeQuerySelectorAll_rethrows (document : Dom.Document) (selector : string) :
  Dom.conforming document ->
  Dom.matching document selector = None ->
  Dom.safeQuerySelectorAll document selector
  = (Throw (SelectorSyntaxError EmptyString),
     [{| severity := Warn; text := "無効なセレクター: " +:+ selector |}]).
Proof.
  unfold Dom.conforming, Dom.safeQuerySelectorAll, Dom.querySelectorAll.
  by intros -> ->.
Qed.

(** On a selector the document accepts, both helpers return what the
    query returns and write nothing. *)
Lemma safeQuerySelectorAll_valid document selector elements :
  Dom.matching document selector = Some elements ->
  Dom.safeQuerySelectorAll document selector = (Ok elements, [])
  /\ Dom.safeQuerySelector document selector = (Ok (head elements), []).
Proof.
  unfold Dom.safeQuerySelectorAll, Dom.querySelectorAll, Dom.safeQuerySelector,
    Dom.querySelector.
  by intros ->.
Qed.

(** ** Counting tags in rendered markup *)

Lemma append_cons a s t : String a s +:+ t = String a (s +:+ t).
Proof. reflexivity. Qed.

Lemma append_assoc (s t u : string) : (s +:+ t) +:+ u = s +:+ t +:+ u.
Proof.
  induction s as [|a s IH]; [reflexivity|].
  by rewrite !append_cons, IH.
Qed.

Lemma startsWith_app_partial l : forall m s,
  Main.partial_match l m = false -> Js.startsWith (l +:+ s) m = Js.startsWith l m.
Proof.
  induction l as [|a l IH]; intros [|b m] s H; simpl in *; try done.
  - by destruct s.
  - destruct (Ascii.eqb b a); simpl in *; [by apply IH|done].
Qed.

Lemma occurrences_empty m : m <> EmptyString -> Main.occurrences m EmptyString = 0%nat.
Proof. by destruct m. Qed.

Lemma occurrences_cons m a s :
  Main.occurrences m (String a s)
  = ((if Js.startsWith (String a s) m then 1 else 0) + Main.occurrences m s)%nat.
Proof. reflexivity. Qed.

(** A literal part of a template contributes its own matches. *)
Lemma occurrences_literal m l : forall s,
  m <> EmptyString -> Main.self_contained m l = true ->
  Main.occurrences m (l +:+ s) = (Main.occurrences m l + Main.occurrences m s)%nat.
Proof.
  induction l as [|a l IH]; intros s Hm H.
  - by rewrite occurrences_empty.
  - change (negb (Main.partial_match (String a l) m) && Main.self_contained m l = true) in H.
    apply andb_true_iff in H as [Hp Hl]. apply negb_true_iff in Hp.
    rewrite append_cons, !occurrences_cons, <- append_cons.
    rewrite (startsWith_app_partial _ _ _ Hp), (IH s Hm Hl). lia.
Qed.

(** Text without an opening angle bracket contributes no tag. *)
Lemma includes_lt_cons a s :
  Js.includes (String a s) "<" = Ascii.eqb "<" a || Js.includes s "<".
Proof.
  change (Js.includes (String a s) "<")
    with ((Ascii.eqb "<" a && Js.startsWith s EmptyString) || Js.includes s "<").
  by destruct s, (Ascii.eqb "<" a).
Qed.

Lemma includes_lt_app s t :
  Js.includes (s +:+ t) "<" = Js.includes s "<" || Js.includes t "<".
Proof.
  induction s as [|a s IH].
  - change (EmptyString +:+ t) with t. by destruct t.
  - by rewrite append_cons, !includes_lt_cons, IH, orb_assoc.
Qed.

Lemma occurrences_text m' text : forall s,
  Js.includes text "<" = false ->
  Main.occurrences (String "<" m') (text +:+ s) = Main.occurrences (String "<" m') s.
Proof.
  induction text as [|a text IH]; intros s H; [done|].
  rewrite includes_lt_cons in H. apply orb_false_iff in H as [Ha Ht].
  rewrite append_cons, occurrences_cons, (IH s Ht).
  change (Js.startsWith (String a (text +:+ s)) (String "<" m'))
    with (Ascii.eqb "<" a && Js.startsWith (text +:+ s) m').
  by rewrite Ha.
Qed.

Lemma escapeHtml_no_lt_bounded n : forall str,
  (String.length str <= n)%nat -> Js.includes (Main.escapeHtml str) "<" = false.
Proof.
  induction n as [|n IH]; intros [|c rest] Hn; simpl in Hn; try done; [lia|].
  simpl Main.escapeHtml. unfold Main.escape_char.
  destruct (Ascii.eqb c "&") eqn:E1.
  { rewrite includes_lt_app, IH by lia. done. }
  destruct (Ascii.eqb c "<") eqn:E2.
  { rewrite includes_lt_app, IH by lia. done. }
  destruct (Ascii.eqb c ">") eqn:E3.
  { rewrite includes_lt_app, IH by lia. done. }
  assert (Hc : Ascii.eqb "<" c = false) by (by rewrite Ascii.eqb_sym).
  destruct rest as [|c2 rest2].
  - by rewrite includes_lt_cons, Hc.
  - destruct (Main.is_nbsp c c2).
    + rewrite includes_lt_app, IH; [done|]. simpl in Hn. lia.
    + rewrite includes_lt_cons, Hc, IH; [done|]. lia.
Qed.

Lemma escapeHtml_no_lt str : Js.includes (Main.escapeHtml str) "<" = false.
Proof. by apply (escapeHtml_no_lt_bounded (String.length str)). Qed.

Lemma fold_left_append {A} (f : A -> string) (l : list A) : forall acc,
  fold_left (fun html x => html +:+ f x) l acc = acc +:+ Main.join (map f l).
Proof.
  induction l as [|x l IH]; intros acc; simpl.
  - induction acc as [|a acc IHa]; [done|]. by rewrite append_cons, <- IHa.
  - by rewrite IH, append_assoc.
Qed.

Section RenderFacts.

Variable inheritedText : string -> string.

Local Abbreviation card := (Main.skillCard inheritedText).
Local Abbreviation block := (Main.categoryBlock inheritedText).

Ltac literal :=
  rewrite occurrences_literal by (vm_compute; done).
Ltac text H :=
  rewrite occurrences_text by (apply H).

Lemma card_counts skill s :
  Main.plain_skill inheritedText skill = true ->
  Main.occurrences Main.categoryOpen (card skill +:+ s)
  = Main.occurrences Main.categoryOpen s
  /\ Main.occurrences Main.cardOpen (card skill +:+ s)
     = S (Main.occurrences Main.cardOpen s).
Proof.
  intros Hplain. apply andb_true_iff in Hplain as [Hicon Hlevel].
  apply negb_true_iff in Hicon, Hlevel.
  unfold Main.skillCard. rewrite !append_assoc.
  split.
  - change Main.categoryOpen with (String "<" (String.substring 1 100 Main.categoryOpen)).
    literal. text escapeHtml_no_lt. literal. text escapeHtml_no_lt.
    literal. text Hicon. literal. text escapeHtml_no_lt.
    literal. text escapeHtml_no_lt. literal. text escapeHtml_no_lt.
    literal. text Hlevel. literal. done.
  - change Main.cardOpen with (String "<" (String.substring 1 100 Main.cardOpen)).
    literal. text escapeHtml_no_lt. literal. text escapeHtml_no_lt.
    literal. text Hicon. literal. text escapeHtml_no_lt.
    literal. text escapeHtml_no_lt. literal. text escapeHtml_no_lt.
    literal. text Hlevel. literal. done.
Qed.

Lemma cards_counts skills : forall s,
  forallb (Main.plain_skill inheritedText) skills = true ->
  Main.occurrences Main.categoryOpen (Main.join (map card skills) +:+ s)
  = Main.occurrences Main.categoryOpen s
  /\ Main.occurrences Main.cardOpen (Main.join (map card skills) +:+ s)
     = (length skills + Main.occurrences Main.cardOpen s)%nat.
Proof.
  induction skills as [|skill skills IH]; intros s Hplain; [done|].
  simpl in Hplain. apply andb_true_iff in Hplain as [Hskill Hplain].
  change (Main.join (map card (skill :: skills)))
    with (card skill +:+ Main.join (map card skills)).
  rewrite append_assoc.
  destruct (card_counts skill (Main.join (map card skills) +:+ s) Hskill) as [-> ->].
  destruct (IH s Hplain) as [-> ->]. done.
Qed.

Lemma block_counts c s :
  forallb (Main.plain_skill inheritedText) (Main.skills c) = true ->
  Main.occurrences Main.categoryOpen (block c +:+ s)
  = S (Main.occurrences Main.categoryOpen s)
  /\ Main.occurrences Main.cardOpen (block c +:+ s)
     = (length (Main.skills c) + Main.occurrences Main.cardOpen s)%nat.
Proof.
  intros Hplain. unfold Main.categoryBlock. rewrite !append_assoc.
  destruct (cards_counts (Main.skills c) (Main.block3 +:+ s) Hplain) as [Hcat Hcard].
  split.
  - change Main.categoryOpen with (String "<" (String.substring 1 100 Main.categoryOpen))
      in *.
    literal. text escapeHtml_no_lt. literal. text escapeHtml_no_lt.
    literal. rewrite Hcat. literal. done.
  - change Main.cardOpen with (String "<" (String.substring 1 100 Main.cardOpen)) in *.
    literal. text escapeHtml_no_lt. literal. text escapeHtml_no_lt.
    literal. rewrite Hcard. literal. simpl. lia.
Qed.

Lemma blocks_count skillsData : forall s,
  Main.plain inheritedText skillsData = true ->
  Main.occurrences Main.categoryOpen (Main.join (map block skillsData) +:+ s)
  = (length skillsData + Main.occurrences Main.categoryOpen s)%nat.
Proof.
  induction skillsData as [|c skillsData IH]; intros s Hplain; [done|].
  simpl in Hplain. apply andb_true_iff in Hplain as [Hc Hplain].
  change (Main.join (map block (c :: skillsData)))
    with (block c +:+ Main.join (map block skillsData)).
  rewrite append_assoc.
  destruct (block_counts c (Main.join (map block skillsData) +:+ s) Hc) as [-> _].
  rewrite (IH s Hplain). done.
Qed.

End RenderFacts.

Lemma append_nil_r s : s +:+ EmptyString = s.
Proof. induction s as [|a s IH]; [done|]. by rewrite append_cons, IH. Qed.

(** C7, as stated, fails for data whose icon is markup: the icon is put
    into the card as it is, so one category renders with two opening tags
    of class skills__category. *)
Lemma renderSkills_markup_icon :
  exists html,
    Main.renderSkills Main.nativeText true Main.markupIcon = (Some html, [])
    /\ length Main.markupIcon = 1%nat
    /\ Main.occurrences Main.categoryOpen html = 2%nat.
Proof. eexists. split; [reflexivity|]. split; [reflexivity|]. vm_compute. reflexivity. Qed.

(** C7, amended.  For every skillsData array in which no icon and no
    level text holds an opening angle bracket (the two values rendered
    without escaping), renderSkills, given its container, assigns markup
    with exactly one opening tag of class skills__category per category;
    for a non-empty array the markup is the sequence of the category
    blocks, and each block holds one such tag and one skill-card tag per
    skill of its category. *)
Theorem renderSkills_blocks inheritedText (skillsData : list Main.Category) :
  Main.plain inheritedText skillsData = true ->
  exists html,
    Main.renderSkills inheritedText true skillsData = (Some html, [])
    /\ Main.occurrences Main.categoryOpen html = length skillsData
    /\ (skillsData <> [] ->
        html = Main.join (map (Main.categoryBlock inheritedText) skillsData))
    /\ forall c, c ∈ skillsData ->
         Main.occurrences Main.categoryOpen (Main.categoryBlock inheritedText c) = 1%nat
         /\ Main.occurrences Main.cardOpen (Main.categoryBlock inheritedText c)
            = length (Main.skills c).
Proof.
  intros Hplain.
  assert (Hblocks : forall c, c ∈ skillsData ->
            Main.occurrences Main.categoryOpen (Main.categoryBlock inheritedText c) = 1%nat
            /\ Main.occurrences Main.cardOpen (Main.categoryBlock inheritedText c)
               = length (Main.skills c)).
  { intros c Hc. unfold Main.plain in Hplain. rewrite forallb_forall in Hplain.
    apply list_elem_of_In, Hplain in Hc.
    destruct (block_counts inheritedText c EmptyString Hc) as [H1 H2].
    rewrite append_nil_r in H1, H2. rewrite H1, H2.
    split; [done|]. vm_compute (Main.occurrences Main.cardOpen EmptyString). lia. }
  destruct skillsData as [|c rest].
  - eexists. split; [reflexivity|]. split; [by vm_compute|]. split; [done|exact Hblocks].
  - eexists. split; [reflexivity|]. rewrite fold_left_append.
    change (EmptyString +:+ ?x) with x.
    split; [|split; [done|exact Hblocks]].
    rewrite <- (append_nil_r (Main.join _)), blocks_count by done.
    vm_compute (Main.occurrences Main.categoryOpen EmptyString). lia.
Qed.

(** ** The theorems at concrete inputs *)

Lemma getRepositories_never_rejects_witness :
  cache_fresh page_load = None /\ fetched offline = None
  /\ fst (getRepositories SimpleURL.parse offline page_load) = Settled (Fulfilled []).
Proof.
  split; [reflexivity|]. split; [reflexivity|].
  apply (getRepositories_never_rejects SimpleURL.parse offline page_load); reflexivity.
Defined.

Lemma getRepositories_cache_witness :
  cache (this (cached_state 60000)) !! cacheKey
  = Some {| data := []; timestamp := 1700000000000 |}
  /\ 60000 <= 3600000
  /\ fst (getRepositories SimpleURL.parse online (cached_state 60000))
     = Settled (Fulfilled [])
  /\ requests (host (snd (getRepositories SimpleURL.parse online (cached_state 60000))))
     = [].
Proof.
  split; [reflexivity|]. split; [lia|].
  pose proof (getRepositories_cache SimpleURL.parse online (cached_state 60000)
                {| data := []; timestamp := 1700000000000 |} eq_refl) as [Hfresh _].
  destruct Hfresh as (H1 & H2 & _); [simpl; lia|]. split; [exact H1 | exact H2].
Defined.

Lemma rate_limit_sequential_witness :
  let s := perform_all SimpleURL.parse [OpGetRepositories offline] page_load in
  cache_fresh s = None
  /\ fst (try_catch_finally getRepositories_try s) = AwaitTimer 1700000001000.
Proof.
  intros s. split; [reflexivity|].
  exact (proj2 (proj2 (rate_limit_sequential SimpleURL.parse 1700000000000
                         [OpGetRepositories offline])) eq_refl).
Defined.

Lemma safeQuerySelectorAll_rethrows_witness :
  Dom.conforming Dom.example_document
  /\ Dom.matching Dom.example_document "div[" = None
  /\ Dom.safeQuerySelectorAll Dom.example_document "div["
     = (Throw (SelectorSyntaxError EmptyString),
        [{| severity := Warn; text := "無効なセレクター: div[" |}]).
Proof.
  split; [reflexivity|]. split; [reflexivity|].
  apply (safeQuerySelectorAll_rethrows Dom.example_document "div["); reflexivity.
Defined.

Lemma renderSkills_blocks_witness :
  Main.plain Main.nativeText Main.skillsData = true
  /\ exists html,
      Main.renderSkills Main.nativeText true Main.skillsData = (Some html, [])
      /\ Main.occurrences Main.categoryOpen html = 2%nat.
Proof.
  split; [reflexivity|].
  destruct (renderSkills_blocks Main.nativeText Main.skillsData eq_refl)
    as (html & Hr & Hn & _).
  exists html. split; [exact Hr | exact Hn].
Defined.

Lemma processRepositories_filtered_witness :
  let repos := [toolRepo; forkedRepo; profileRepo; portfolioRepo] in
  summarize SimpleURL.parse toolRepo ∈ processRepositories SimpleURL.parse repos
  /\ exists repo,
      repo ∈ repos /\ fork repo = false /\ name repo = "cli-tool".
Proof.
  intros repos.
  assert (Hin : summarize SimpleURL.parse toolRepo
                ∈ processRepositories SimpleURL.parse repos).
  { apply list_elem_of_lookup. exists 1%nat. reflexivity. }
  split; [exact Hin|].
  destruct (processRepositories_filtered SimpleURL.parse repos _ Hin)
    as (repo & Hrepo & _ & Htitle & Hfork & _).
  exists repo. split; [exact Hrepo|]. split; [exact Hfork|]. symmetry. exact Htitle.
Defined.

Lemma processRepositories_ordered_witness :
  let out := processRepositories SimpleURL.parse [toolRepo; forkedRepo; portfolioRepo] in
  (0 < 1)%nat
  /\ out !! 0%nat = Some (summarize SimpleURL.parse portfolioRepo)
  /\ out !! 1%nat = Some (summarize SimpleURL.parse toolRepo)
  /\ in_display_order (summarize SimpleURL.parse portfolioRepo)
       (summarize SimpleURL.parse toolRepo).
Proof.
  intros out. split; [lia|]. split; [reflexivity|]. split; [reflexivity|].
  apply (processRepositories_ordered SimpleURL.parse
           [toolRepo; forkedRepo; portfolioRepo] 0 1); [lia|reflexivity|reflexivity].
Defined.

(** * Further properties of the client *)

(** ** The cache *)

(** What was stored under a key is read back unchanged for as long as
    CACHE_DURATION has not passed; after that the read answers null and
    removes the entry.  Either way nothing stored under another key is
    touched. *)
Theorem cache_round_trip (key : string) (d : list RepoSummary) (elapsed : Z) (s : State) :
  let stored := advance elapsed (snd (setCachedData key d s)) in
  let r := getCachedData key stored in
  (elapsed <= 3600000 -> r = (Ok (Some d), stored))
  /\ (3600000 < elapsed ->
      fst r = Ok None /\ cache (this (snd r)) !! key = None)
  /\ (forall other, other <> key ->
      cache (this (snd r)) !! other = cache (this s) !! other).
Proof.
  destruct s as [[c l b] [n k rq a bc]]. intros stored r. subst r stored.
  exec. rewrite lookup_insert_eq. cbv [timestamp data].
  change GITHUB_CONFIG.CACHE_DURATION with 3600000.
  destruct (3600000 <? n + elapsed - n) eqn:E.
  - apply Z.ltb_lt in E. split; [lia|]. split.
    + intros _. split; [done|]. apply lookup_delete_eq.
    + intros other Hne. by rewrite lookup_delete_ne, lookup_insert_ne.
  - apply Z.ltb_ge in E. split; [done|]. split; [lia|].
    intros other Hne. by rewrite lookup_insert_ne.
Qed.

Lemma cache_round_trip_witness :
  getCachedData "k" (advance 5 (snd (setCachedData "k" [] page_load)))
  = (Ok (Some []), advance 5 (snd (setCachedData "k" [] page_load))).
Proof.
  apply (cache_round_trip "k" [] 5 page_load). lia.
Defined.

(** ** Calls in sequence *)

Lemma fresh_after_success parseURL o s repos (d : N) :
  cache_fresh s = None -> fetched o = Some repos -> Z.of_N d <= 3600000 ->
  cache_fresh (advance (Z.of_N d) (snd (getRepositories parseURL o s)))
  = Some {| data := processRepositories parseURL repos;
            timestamp := now (host (snd (getRepositories parseURL o s))) |}.
Proof.
  intros Hfresh Hfetched Hd.
  pose proof (getRepositories_effect parseURL o s) as H. cbv zeta in H.
  rewrite Hfresh, Hfetched in H. destruct H as (_ & _ & _ & Hc & _).
  unfold cache_fresh. cbn [advance with_host this host now cache].
  rewrite Hc, lookup_insert_eq. cbn [timestamp].
  change GITHUB_CONFIG.CACHE_DURATION with 3600000.
  assert ((now (host (snd (getRepositories parseURL o s))) + Z.of_N d
           - now (host (snd (getRepositories parseURL o s))) <=? 3600000) = true) as ->;
    [apply Z.leb_le; lia | done].
Qed.

Lemma stale_after_failure parseURL o s (d : Z) :
  cache_fresh s = None -> fetched o = None ->
  cache_fresh (advance d (snd (getRepositories parseURL o s))) = None.
Proof.
  intros Hfresh Hfetched.
  pose proof (getRepositories_effect parseURL o s) as H. cbv zeta in H.
  rewrite Hfresh, Hfetched in H. destruct H as (_ & _ & _ & Hc & _).
  unfold cache_fresh. cbn [advance with_host this host now cache].
  by rewrite Hc, lookup_delete_eq.
Qed.

(** A call that follows a successful one within the hour returns the same
    list and sends no request. *)
Theorem second_call_served_from_cache parseURL (o1 o2 : Oracle) (s : State)
    (repos : list Repo) (d : N) :
  cache_fresh s = None -> fetched o1 = Some repos -> Z.of_N d <= 3600000 ->
  let r1 := getRepositories parseURL o1 s in
  let r2 := getRepositories parseURL o2 (advance (Z.of_N d) (snd r1)) in
  fst r2 = Settled (Fulfilled (processRepositories parseURL repos))
  /\ fst r2 = fst r1
  /\ requests (host (snd r2)) = requests (host (snd r1)).
Proof.
  intros Hfresh Hfetched Hd r1 r2. subst r1 r2.
  pose proof (fresh_after_success parseURL o1 s repos d Hfresh Hfetched Hd) as Hf.
  pose proof (getRepositories_effect parseURL o1 s) as H1. cbv zeta in H1.
  rewrite Hfresh, Hfetched in H1. destruct H1 as (_ & _ & H1 & _).
  pose proof (getRepositories_effect parseURL o2
                (advance (Z.of_N d) (snd (getRepositories parseURL o1 s)))) as H2.
  cbv zeta in H2. rewrite Hf in H2. destruct H2 as [H2 Hv].
  apply view_inv in Hv as (_ & _ & Hr & _).
  cbn [data] in H2. rewrite H2, H1. done.
Qed.

(** A failure is not remembered: after a call that fell back to the empty
    list, the next call sends a request again, however soon it comes, and
    returns what that request brings. *)
Theorem failed_call_is_retried_next_time parseURL (o1 o2 : Oracle) (s : State) (d : N) :
  cache_fresh s = None -> fetched o1 = None ->
  let s1 := advance (Z.of_N d) (snd (getRepositories parseURL o1 s)) in
  let r2 := getRepositories parseURL o2 s1 in
  (exists t, requests (host (snd r2)) = requests (host s1) ++ [t])
  /\ fst r2
     = Settled (Fulfilled
         match fetched o2 with
         | Some repos => processRepositories parseURL repos
         | None => []
         end).
Proof.
  intros Hfresh Hfetched s1 r2. subst r2 s1.
  pose proof (stale_after_failure parseURL o1 s (Z.of_N d) Hfresh Hfetched) as Hs.
  pose proof (getRepositories_effect parseURL o2
                (advance (Z.of_N d) (snd (getRepositories parseURL o1 s)))) as H2.
  cbv zeta in H2. rewrite Hs in H2. destruct H2 as (_ & Hr & H2).
  split; [eauto|]. destruct (fetched o2); by destruct H2 as [-> _].
Qed.

(** After clearCache the next call goes to the network, whatever was
    cached and however fresh it was. *)
Theorem clearCache_forces_request parseURL (o : Oracle) (s : State) :
  let s1 := snd (clearCache s) in
  cache (this s1) = ∅
  /\ exists t,
      requests (host (snd (getRepositories parseURL o s1))) = requests (host s) ++ [t].
Proof.
  intros s1. split; [done|].
  pose proof (getRepositories_effect parseURL o s1) as H. cbv zeta in H.
  assert (cache_fresh s1 = None) as Hf by (unfold cache_fresh, s1; by exec).
  rewrite Hf in H. destruct H as (_ & Hr & _). by eexists.
Qed.

Lemma second_call_served_from_cache_witness :
  cache_fresh page_load = None
  /\ fetched online = Some [toolRepo; portfolioRepo]
  /\ requests (host (snd (getRepositories SimpleURL.parse offline
                (advance 60000 (snd (getRepositories SimpleURL.parse online page_load))))))
     = requests (host (snd (getRepositories SimpleURL.parse online page_load))).
Proof.
  split; [reflexivity|]. split; [reflexivity|].
  apply (second_call_served_from_cache SimpleURL.parse online offline page_load
           [toolRepo; portfolioRepo] 60000); [reflexivity|reflexivity|lia].
Defined.

Lemma failed_call_is_retried_next_time_witness :
  cache_fresh page_load = None /\ fetched offline = None
  /\ fst (getRepositories SimpleURL.parse online
            (advance 10 (snd (getRepositories SimpleURL.parse offline page_load))))
     = Settled (Fulfilled (processRepositories SimpleURL.parse [toolRepo; portfolioRepo])).
Proof.
  split; [reflexivity|]. split; [reflexivity|].
  apply (failed_call_is_retried_next_time SimpleURL.parse offline online page_load 10);
    reflexivity.
Defined.

(** ** The loading indicator *)

Lemma size_with_loader (a : gset string) :
  negb (bool_decide (size ({["github-repos"]} ∪ a) = 0%nat)) = true.
Proof.
  apply negb_true_iff, bool_decide_eq_false. intros H.
  apply size_empty_iff in H. set_solver.
Qed.

Lemma start_loading s :
  let r := try_catch_finally getRepositories_try s in
  if is_settled (fst r) then idle (snd r) else busy (snd r).
Proof.
  destruct s as [[c l b] [n k rq a bc]]. exec.
  destruct (c !! cacheKey) as [e|].
  - destruct (GITHUB_CONFIG.CACHE_DURATION <? n - timestamp e).
    + destruct (n - l <? GITHUB_CONFIG.RATE_LIMIT_DELAY); simpl;
        (split; [done|]; split; [set_solver|]);
        intros classList; rewrite size_with_loader; destruct bc; intros [= <-];
        set_solver.
    + simpl. split; [done|]. set_solver.
  - destruct (n - l <? GITHUB_CONFIG.RATE_LIMIT_DELAY); simpl;
      (split; [done|]; split; [set_solver|]);
      intros classList; rewrite size_with_loader; destruct bc; intros [= <-];
      set_solver.
Qed.

(** A later stretch leaves the indicator alone while the call stays
    suspended, and takes it down when the call settles. *)
Lemma wake_loading parseURL pc r s pc' s' :
  wake parseURL pc r s = Some (pc', s') ->
  if is_settled pc' then idle s'
  else isLoading (this s') = isLoading (this s)
       /\ activeLoaders (host s') = activeLoaders (host s)
       /\ bodyClasses (host s') = bodyClasses (host s).
Proof.
  destruct s as [[c l b] [n k rq a bc]].
  destruct pc as [due| |response|result], r as [|reply|reply]; simpl; try done.
  - destruct (due <=? n); [|done]. intros [= <- <-]. by exec.
  - destruct reply as [|response].
    + intros [= <- <-]. exec. simpl. split; [done|]. set_solver.
    + cbv [try_catch_finally after_fetch bind console_write modify].
      destruct (Response.ok response); simpl.
      * match goal with |- context [logRateLimit ?r ?s] =>
          destruct (logRateLimit_console r s) as [entries ->] end.
        intros [= <- <-]. by exec.
      * intros [= <- <-]. exec. simpl. split; [done|]. set_solver.
  - destruct reply as [|[| |repos]]; intros [= <- <-]; exec; simpl;
      (split; [done|]; set_solver).
Qed.

Lemma resume_loading parseURL o pc s :
  (is_settled pc = true -> idle s) ->
  is_settled (fst (resume parseURL o pc s)) = true -> idle (snd (resume parseURL o pc s)).
Proof.
  intros Hpc. destruct pc as [due| |response|result]; unfold resume.
  - set (s1 := advance _ s). set (x := try_catch_finally after_timer s1).
    assert (Hw : wake parseURL (AwaitTimer (now (host s1))) TimerFired s1
                 = Some (fst x, snd x)).
    { unfold wake. by rewrite Z.leb_refl, <- surjective_pairing. }
    apply wake_loading in Hw. intros Hs. by rewrite Hs in Hw.
  - set (s1 := advance _ s). set (x := try_catch_finally _ s1).
    assert (Hw : wake parseURL AwaitFetch (FetchSettled (fetch_reply o)) s1
                 = Some (fst x, snd x)).
    { unfold wake. by rewrite <- surjective_pairing. }
    apply wake_loading in Hw. intros Hs. by rewrite Hs in Hw.
  - set (s1 := advance _ s). set (x := try_catch_finally _ s1).
    assert (Hw : wake parseURL (AwaitJson response) (JsonSettled (json_reply o)) s1
                 = Some (fst x, snd x)).
    { unfold wake. by rewrite <- surjective_pairing. }
    apply wake_loading in Hw. intros Hs. by rewrite Hs in Hw.
  - intros _. by apply Hpc.
Qed.

(** The loading indicator follows the call: it is up from the moment a
    call has to go to the network, stays as it is while the call is
    suspended, and is down once the call has settled, whether from the
    cache, with data or with the fallback. *)
Theorem loading_indicator parseURL (o : Oracle) (s : State) :
  idle (snd (getRepositories parseURL o s))
  /\ (cache_fresh s = None -> busy (snd (try_catch_finally getRepositories_try s)))
  /\ (forall pc r s1 pc' s',
        wake parseURL pc r s1 = Some (pc', s') ->
        if is_settled pc' then idle s'
        else isLoading (this s') = isLoading (this s1)
             /\ activeLoaders (host s') = activeLoaders (host s1)).
Proof.
  split; [|split].
  - assert (Hsettled : is_settled (fst (getRepositories parseURL o s)) = true).
    { pose proof (getRepositories_effect parseURL o s) as H. cbv zeta in H.
      destruct (cache_fresh s); [destruct H as [-> _]; done|].
      destruct H as (_ & _ & H). destruct (fetched o); destruct H as [-> _]; done. }
    revert Hsettled. unfold getRepositories.
    pose proof (start_loading s) as H0. cbv zeta in H0.
    destruct (try_catch_finally getRepositories_try s) as [pc0 s0]. simpl in H0.
    pose proof (resume_loading parseURL o pc0 s0) as H1.
    destruct (resume parseURL o pc0 s0) as [pc1 s1]. simpl in H1.
    pose proof (resume_loading parseURL o pc1 s1) as H2.
    destruct (resume parseURL o pc1 s1) as [pc2 s2]. simpl in H2.
    apply resume_loading. intros Hs2. apply H2; [|done].
    intros Hs1. apply H1; [|done]. intros Hs0. by rewrite Hs0 in H0.
  - intros Hfresh. pose proof (start_loading s) as H. cbv zeta in H.
    pose proof (start_effect s) as He. cbv zeta in He. rewrite Hfresh in He.
    destruct (_ <? _); destruct He as [Hpc _]; rewrite Hpc in H; exact H.
  - intros pc r s1 pc' s' Hw. pose proof (wake_loading _ _ _ _ _ _ Hw) as H.
    destruct (is_settled pc'); [done|]. by destruct H as (? & ? & _).
Qed.

Lemma loading_indicator_witness :
  cache_fresh page_load = None
  /\ busy (snd (try_catch_finally getRepositories_try page_load)).
Proof.
  split; [reflexivity|].
  apply (loading_indicator SimpleURL.parse offline page_load). reflexivity.
Defined.

(** ** Calls that overlap *)

(** Requests in flight are not shared: when a second call is made while
    the first is still on its way (nothing fresh cached), the second does
    not wait for the first's answer; it sets its own timer and, when that
    fires, sends a request of its own. *)
Theorem overlapping_calls_do_not_share parseURL (s : State) (sys : System) :
  cache_fresh s = None ->
  run parseURL [Call; Call] {| state := s; calls := [] |} = Some sys ->
  exists pc1 due,
    calls sys = [pc1; AwaitTimer due]
    /\ (pc1 = AwaitFetch \/ pc1 = AwaitTimer due)
    /\ forall s2, due <= now (host s2) ->
         exists s3,
           wake parseURL (AwaitTimer due) TimerFired s2 = Some (AwaitFetch, s3)
           /\ requests (host s3) = requests (host s2) ++ [now (host s2)].
Proof.
  intros Hfresh. cbn [run step state calls].
  pose proof (start_effect s) as H1. cbv zeta in H1. rewrite Hfresh in H1.
  destruct (try_catch_finally getRepositories_try s) as [pc1 s1]. simpl in H1.
  cbn [state calls app].
  pose proof (start_effect s1) as H2. cbv zeta in H2.
  destruct (try_catch_finally getRepositories_try s1) as [pc2 s2]. simpl in H2.
  intros [= <-]. cbn [calls].
  assert (Hwake : forall due s2, due <= now (host s2) ->
            exists s3,
              wake parseURL (AwaitTimer due) TimerFired s2 = Some (AwaitFetch, s3)
              /\ requests (host s3) = requests (host s2) ++ [now (host s2)]).
  { intros due s0 Hdue. unfold wake.
    assert ((due <=? now (host s0)) = true) as -> by (apply Z.leb_le; lia).
    pose proof (timer_effect s0) as [Hpc Hv]. apply view_inv in Hv as (_ & _ & Hr & _).
    exists (snd (try_catch_finally after_timer s0)). split; [|done].
    by rewrite <- Hpc, <- surjective_pairing. }
  assert (Hfresh1 : cache_fresh s1 = None).
  { unfold cache_fresh.
    destruct (_ <? _); destruct H1 as [_ Hv]; apply view_inv in Hv as (-> & _);
      by rewrite lookup_delete_eq. }
  rewrite Hfresh1 in H2.
  destruct (now (host s) - lastRequestTime (this s) <? GITHUB_CONFIG.RATE_LIMIT_DELAY) eqn:E;
    destruct H1 as [-> Hv1]; apply view_inv in Hv1 as (_ & Hl1 & _ & Hn1);
    rewrite Hl1, Hn1 in H2.
  - rewrite E in H2. destruct H2 as [-> _]. eexists _, _. split; [done|]. split; [by right|].
    intros s0. apply Hwake.
  - rewrite Z.sub_diag in H2. change (0 <? GITHUB_CONFIG.RATE_LIMIT_DELAY) with true in H2.
    destruct H2 as [-> _]. eexists _, _. split; [done|]. split; [by left|].
    intros s0. apply Hwake.
Qed.

Lemma overlapping_calls_do_not_share_witness :
  cache_fresh page_load = None
  /\ exists sys pc1 due,
      run SimpleURL.parse [Call; Call] {| state := page_load; calls := [] |} = Some sys
      /\ calls sys = [pc1; AwaitTimer due].
Proof.
  split; [reflexivity|].
  assert (E : exists sys,
             run SimpleURL.parse [Call; Call] {| state := page_load; calls := [] |}
             = Some sys)
    by (eexists; vm_compute; reflexivity).
  destruct E as [sys E].
  destruct (overlapping_calls_do_not_share SimpleURL.parse page_load sys eq_refl E)
    as (pc1 & due & H & _).
  by exists sys, pc1, due.
Defined.

(** * Further properties of the pure functions *)

(** ** Strings *)


Lemma startsWith_spec s : forall p,
  Js.startsWith s p = true <-> exists b, s = p +:+ b.
Proof.
  induction s as [|c s IH]; intros [|a p]; simpl.
  - split; [by exists EmptyString | done].
  - split; [done | by intros [b Hb]].
  - split; [by exists (String c s) | done].
  - rewrite andb_true_iff, IH. split.
    + intros [E [b ->]]. apply Ascii.eqb_eq in E as ->. by exists b.
    + intros [b Hb]. rewrite append_cons in Hb. injection Hb as -> ->.
      split; [apply Ascii.eqb_refl | by exists b].
Qed.

Lemma includes_spec s : forall k,
  Js.includes s k = true <-> exists a b, s = a +:+ k +:+ b.
Proof.
  induction s as [|c s IH]; intros k.
  - change (Js.includes EmptyString k) with (Js.startsWith EmptyString k || false).
    rewrite orb_false_r, startsWith_spec. split.
    + intros [b Hb]. by exists EmptyString, b.
    + intros (a & b & H). destruct a; [by exists b | done].
  - change (Js.includes (String c s) k)
      with (Js.startsWith (String c s) k || Js.includes s k).
    rewrite orb_true_iff, startsWith_spec, IH. split.
    + intros [[b Hb] | (a & b & Hab)].
      * by exists EmptyString, b.
      * exists (String c a), b. by rewrite append_cons, Hab.
    + intros (a & b & H). destruct a as [|c' a].
      * left. by exists b.
      * right. rewrite append_cons in H. injection H as -> ->. by exists a, b.
Qed.

(** A topic counts as a technology exactly when, in lower case, it holds
    one of the keywords somewhere: the test is on substrings, not on
    words. *)
Theorem isTechnologyTopic_substring (topic : string) :
  isTechnologyTopic topic = true
  <-> exists keyword a b,
        keyword ∈ techKeywords /\ Js.toLowerCase topic = a +:+ keyword +:+ b.
Proof.
  unfold isTechnologyTopic. rewrite existsb_exists. split.
  - intros (keyword & Hin & H). apply includes_spec in H as (a & b & H).
    exists keyword, a, b. split; [by apply list_elem_of_In | done].
  - intros (keyword & a & b & Hin & H). exists keyword.
    split; [by apply list_elem_of_In|]. apply includes_spec. by exists a, b.
Qed.

Example isTechnologyTopic_inside_a_word :
  isTechnologyTopic "Digital-Art" = true /\ isTechnologyTopic "restaurant" = true
  /\ isTechnologyTopic "game" = false.
Proof. repeat split. Qed.

(** ** Technology names *)

Lemma lower_upper_char c : Js.lower_char (Js.upper_char c) = Js.lower_char c.
Proof. by destruct c as [[] [] [] [] [] [] [] []]. Qed.

Lemma upper_upper_char c : Js.upper_char (Js.upper_char c) = Js.upper_char c.
Proof. by destruct c as [[] [] [] [] [] [] [] []]. Qed.

Lemma assoc_In k m v : assoc k m = Some v -> In (k, v) m.
Proof.
  induction m as [|[k' v'] m IH]; simpl; [done|].
  destruct (String.eqb k k') eqn:E.
  - apply String.eqb_eq in E as ->. intros [= ->]. by left.
  - intros H. right. by apply IH.
Qed.

(** Normalizing is idempotent: a name that came out of
    normalizeTechnologyName is left as it is when normalized again. *)
Theorem normalizeTechnologyName_idempotent (tech normalized : string) :
  normalizeTechnologyName tech = TStr normalized ->
  normalizeTechnologyName normalized = TStr normalized.
Proof.
  unfold normalizeTechnologyName at 1.
  destruct (assoc (Js.toLowerCase tech) nameMap) as [v|] eqn:Hmap.
  - intros [= <-]. apply assoc_In in Hmap. simpl in Hmap.
    repeat (destruct Hmap as [[= _ <-] | Hmap]; [reflexivity|]). done.
  - destruct (existsb _ inheritedLower) eqn:Hinh; [done|]. intros [= <-].
    assert (Hkey : Js.toLowerCase (Js.capitalize tech) = Js.toLowerCase tech).
    { destruct tech as [|c tech]; [done|]. simpl. by rewrite lower_upper_char. }
    unfold normalizeTechnologyName. rewrite Hkey, Hmap, Hinh. f_equal.
    destruct tech as [|c tech]; [done|]. simpl. by rewrite upper_upper_char.
Qed.

Lemma normalizeTechnologyName_idempotent_witness :
  normalizeTechnologyName "vue" = TStr "Vue.js"
  /\ normalizeTechnologyName "Vue.js" = TStr "Vue.js".
Proof.
  split; [reflexivity|].
  apply (normalizeTechnologyName_idempotent "vue" "Vue.js"). reflexivity.
Defined.

(** ** The order of the summaries *)

Lemma same_rank_standing x y :
  Js.same_rank compare_featured_stars x y = same_standing x y.
Proof.
  unfold Js.same_rank, same_standing, compare_featured_stars. rewrite !or_zero_id.
  apply eq_true_iff_eq.
  destruct (featured x), (featured y); simpl;
    rewrite ?andb_true_iff, ?Z.leb_le, ?Z.eqb_eq; split; try lia; try done.
Qed.

Lemma filter_kept repos :
  List.filter (fun repo => negb (fork repo))
    (List.filter
       (fun repo => negb (Js.array_includes GITHUB_CONFIG.EXCLUDED_REPOS (name repo)))
       repos)
  = List.filter kept repos.
Proof.
  induction repos as [|repo repos IH]; [done|]. cbn [List.filter]. rewrite <- IH.
  unfold kept.
  destruct (fork repo) eqn:Ef, (Js.array_includes GITHUB_CONFIG.EXCLUDED_REPOS (name repo)).
  all: cbn [negb andb List.filter]; rewrite ?Ef; cbn [negb]; done.
Qed.

(** Sorting does not reshuffle: as many summaries come out as
    repositories are kept, and summaries with the same featured flag and
    the same number of stars stay in the order in which the API listed
    their repositories. *)
Theorem processRepositories_keeps_api_order parseURL (repos : list Repo)
    (x : RepoSummary) :
  List.filter (same_standing x) (processRepositories parseURL repos)
  = List.filter (same_standing x) (map (summarize parseURL) (List.filter kept repos))
  /\ length (processRepositories parseURL repos) = length (List.filter kept repos).
Proof.
  unfold processRepositories. rewrite filter_kept. split.
  - rewrite <- !(List.filter_ext _ _ (same_rank_standing x)).
    apply sort_stable, compare_featured_stars_consistent.
  - rewrite (Permutation_length (sort_perm _ _)). apply length_map.
Qed.

(** ** Demo URLs *)

(** With a URL constructor that rejects the empty string (as the real one
    does), a demo URL is never the empty string: it is null, the trimmed
    homepage, or an address on the account's GitHub Pages site. *)
Theorem getDemoUrl_never_empty parseURL (repo : Repo) (url : string) :
  parseURL EmptyString = None ->
  getDemoUrl parseURL repo = Some url ->
  url <> EmptyString
  /\ (url = Js.trim (default EmptyString (homepage repo))
      \/ Js.startsWith url "https://purplehoge.github.io/" = true).
Proof.
  intros Hempty. unfold getDemoUrl.
  set (trimmed := Js.trim (default EmptyString (homepage repo))).
  assert (Hv : isVercelUrl parseURL trimmed = true -> trimmed <> EmptyString).
  { intros H ->. unfold isVercelUrl in H. by rewrite Hempty in H. }
  assert (Hd : isValidDeployUrl parseURL trimmed = true -> trimmed <> EmptyString).
  { intros H ->. unfold isValidDeployUrl in H. by rewrite Hempty in H. }
  assert (Hpages : forall u, getGitHubPagesUrl repo = Some u ->
            u <> EmptyString /\ Js.startsWith u "https://purplehoge.github.io/" = true).
  { intros u. unfold getGitHubPagesUrl.
    destruct (String.eqb _ _); [by intros [= <-]|].
    destruct (likelyHasGitHubPages repo); [|done]. intros [= <-].
    split; [done|]. apply startsWith_spec. by eexists. }
  destruct (Js.truthy (homepage repo)) eqn:Hh.
  - destruct (isVercelUrl parseURL trimmed) eqn:E1.
    { intros [= <-]. split; [by apply Hv | by left]. }
    destruct (isValidDeployUrl parseURL trimmed) eqn:E2.
    { intros [= <-]. split; [by apply Hd | by left]. }
    destruct (getGitHubPagesUrl repo) as [u|].
    { intros [= <-]. destruct (Hpages u eq_refl). split; [done | by right]. }
    simpl. destruct (String.eqb trimmed EmptyString) eqn:E3; [done|].
    intros [= <-]. apply String.eqb_neq in E3. split; [done | by left].
  - destruct (getGitHubPagesUrl repo) as [u|]; [|done].
    intros [= <-]. destruct (Hpages u eq_refl). split; [done | by right].
Qed.

Lemma getDemoUrl_never_empty_witness :
  SimpleURL.parse EmptyString = None
  /\ getDemoUrl SimpleURL.parse portfolioRepo
     = Some "https://purplehoge.github.io/purplehoge-portfolio/"
  /\ "https://purplehoge.github.io/purplehoge-portfolio/" <> EmptyString.
Proof.
  split; [reflexivity|]. split; [reflexivity|].
  apply (getDemoUrl_never_empty SimpleURL.parse portfolioRepo); reflexivity.
Defined.

(** ** Escaping *)






(** * Further properties of the utility module *)

(** ** Class helpers *)



(** ** LoadingManager *)

(** After each of start, stop and stopAll the body (when there is one)
    carries the class 'loading' exactly when some loader is active, and
    isLoading() answers the same.  Loaders form a set: one stop(id) makes
    [id] inactive however often it was started. *)
Theorem loading_class_follows_loaders (s : State) (op : LoaderOp) :
  let s' := loader_perform s op in
  (forall classList, bodyClasses (host s') = Some classList ->
     "loading" ∈ classList <-> activeLoaders (host s') <> ∅)
  /\ (fst (LoadingManager_isLoading s') = Ok true <-> activeLoaders (host s') <> ∅)
  /\ (forall id, op = LoaderStop id -> id ∉ activeLoaders (host s'))
  /\ (is_Some (bodyClasses (host s')) <-> is_Some (bodyClasses (host s))).
Proof.
  destruct s as [c [n k rq a bc]].
  assert (Hsize : forall X : gset string,
            negb (bool_decide (size X = 0%nat)) = true <-> X <> ∅).
  { intros X. rewrite negb_true_iff, bool_decide_eq_false.
    split; intros H E; apply H; [by rewrite E | by apply size_empty_iff in E;
      apply leibniz_equiv]. }
  assert (Hgen : forall X : gset string,
    let h' := {| now := n; console := k; requests := rq; activeLoaders := X;
                 bodyClasses :=
                   if negb (bool_decide (size X = 0%nat))
                   then safeAddClass "loading" bc else safeRemoveClass "loading" bc |} in
    (forall classList, bodyClasses h' = Some classList ->
       "loading" ∈ classList <-> X <> ∅)
    /\ (negb (bool_decide (size X = 0%nat)) = true <-> X <> ∅)
    /\ (is_Some (bodyClasses h') <-> is_Some bc)).
  { intros X. cbn. split; [|split; [apply Hsize|]].
    - intros classList. destruct (negb (bool_decide (size X = 0%nat))) eqn:E.
      + apply Hsize in E. destruct bc; intros [= <-]. split; [done|set_solver].
      + destruct bc; intros [= <-]. split; [set_solver|].
        intros HX. apply Hsize in HX. congruence.
    - destruct (negb _), bc; simpl; split; intros [? ?]; eauto; done. }
  destruct op as [id|id|]; cbv zeta.
  - destruct (Hgen ({[id]} ∪ a)) as (H1 & H2 & H3).
    split; [exact H1|]. split; [|split; [done|exact H3]].
    rewrite <- H2. cbn. split; [by intros [= ->] | by intros ->].
  - destruct (Hgen (a ∖ {[id]})) as (H1 & H2 & H3).
    split; [exact H1|]. split; [|split; [|exact H3]].
    + rewrite <- H2. cbn. split; [by intros [= ->] | by intros ->].
    + intros ? [= <-]. cbn. set_solver.
  - destruct (Hgen ∅) as (H1 & H2 & H3).
    split; [exact H1|]. split; [|split; [done|exact H3]].
    rewrite <- H2. cbn. split; [by intros [= ->] | by intros ->].
Qed.

Lemma loading_class_follows_loaders_witness :
  let s := loader_perform (loader_perform page_load (LoaderStart "app-init"))
             (LoaderStart "app-init") in
  "app-init" ∉ activeLoaders (host (loader_perform s (LoaderStop "app-init"))).
Proof.
  intros s.
  apply (loading_class_follows_loaders s (LoaderStop "app-init")). reflexivity.
Defined.

(** ** debounce *)

Section DebounceFacts.
Context {A : Type} (wait : Z).



End DebounceFacts.


(** ** throttle *)



Section ThrottleFacts.
Context {A : Type} (limit : Z).



End ThrottleFacts.


(** ** shuffleArray *)

Section ShuffleFacts.
Context {A : Type}.

Lemma insert_perm (l : list A) : forall (j : nat) (x y : A),
  l !! j = Some y -> Permutation (y :: <[j := x]> l) (x :: l).
Proof.
  induction l as [|a l IH]; intros [|j] x y H; try done.
  - injection H as <-. cbn. apply perm_swap.
  - cbn in H |- *. rewrite (perm_swap a y). rewrite (IH j x y H). apply perm_swap.
Qed.

Lemma swap_perm (i j : nat) (a : list A) : Permutation (swap i j a) a.
Proof.
  unfold swap. destruct (a !! i) as [x|] eqn:Hi; [|done].
  destruct (a !! j) as [y|] eqn:Hj; [|done].
  destruct (decide (i = j)) as [->|Hne].
  - assert (x = y) as -> by congruence.
    rewrite list_insert_insert_eq, list_insert_id; done.
  - apply (Permutation_cons_inv (a := y)).
    rewrite insert_perm; [|by rewrite list_lookup_insert_ne].
    by apply insert_perm.
Qed.

(** The index drawn for position [i] is one of [0 .. i]. *)
Lemma floor_times_below (r : Draw) (i : nat) : (floor_times r (i + 1) <= i)%nat.
Proof.
  unfold floor_times. destruct r as [n d Hlt]. cbn. apply Nat.ltb_lt in Hlt.
  apply Nat.lt_succ_r. apply Nat.Div0.div_lt_upper_bound. nia.
Qed.

(** Inside the array the swap is the double assignment of the source. *)
Lemma swap_in_range (i j : nat) (a : list A) :
  (i < length a)%nat -> (j <= i)%nat ->
  exists x y, a !! i = Some x /\ a !! j = Some y
              /\ swap i j a = <[j := x]> (<[i := y]> a).
Proof.
  intros Hi Hj. unfold swap.
  destruct (lookup_lt_is_Some_2 a i Hi) as [x Hx].
  destruct (lookup_lt_is_Some_2 a j ltac:(lia)) as [y Hy].
  exists x, y. by rewrite Hx, Hy.
Qed.

Lemma shuffle_from_perm (random : nat -> Draw) (i : nat) : forall (k : nat) (l : list A),
  Permutation (shuffle_from random i k l) l.
Proof.
  induction i as [|i IH]; intros k l; [done|].
  cbn [shuffle_from]. rewrite IH. apply swap_perm.
Qed.

(** Whatever [Math.random] draws, the array [shuffleArray] returns holds
    the elements of the given array, each as often as the given array
    does (duplicates included), so it is as long as the given one. *)
Theorem shuffleArray_permutation (random : nat -> Draw) (array : list A) :
  Permutation (shuffleArray random array) array
  /\ length (shuffleArray random array) = length array.
Proof.
  assert (H : Permutation (shuffleArray random array) array)
    by apply shuffle_from_perm.
  split; [exact H|]. by apply Permutation_length.
Qed.
End ShuffleFacts.

(** ** The projects section *)

Ltac count_literal :=
  rewrite occurrences_literal by (vm_compute; done).
Ltac count_text :=
  rewrite occurrences_text by (apply escapeHtml_no_lt).

Lemma techs_count (techs : list string) (s : string) :
  Main.occurrences App.articleOpen (Main.join (map App.techSpan techs) +:+ s)
  = Main.occurrences App.articleOpen s.
Proof.
  change App.articleOpen with (String "<" (String.substring 1 100 App.articleOpen)).
  induction techs as [|tech techs IH]; [done|].
  change (Main.join (map App.techSpan (tech :: techs)))
    with (App.techSpan tech +:+ Main.join (map App.techSpan techs)).
  unfold App.techSpan at 1. rewrite !append_assoc.
  count_literal. count_text. count_literal. rewrite IH. done.
Qed.

Lemma imagePart_count (project : App.Project) (s : string) :
  Main.occurrences App.articleOpen (App.imagePart project +:+ s)
  = Main.occurrences App.articleOpen s.
Proof.
  change App.articleOpen with (String "<" (String.substring 1 100 App.articleOpen)).
  unfold App.imagePart. destruct (Js.truthy (App.image project)).
  - rewrite !append_assoc.
    count_literal. count_text. count_literal. count_text. count_literal. done.
  - count_literal. done.
Qed.

Lemma badgePart_count (project : App.Project) (s : string) :
  Main.occurrences App.articleOpen (App.badgePart project +:+ s)
  = Main.occurrences App.articleOpen s.
Proof.
  change App.articleOpen with (String "<" (String.substring 1 100 App.articleOpen)).
  unfold App.badgePart. destruct (App.featured project); [|done].
  count_literal. done.
Qed.

Lemma linkPart_count (url : option string) (kind label : string) (s : string) :
  (kind, label) = ("primary", "Demo") \/ (kind, label) = ("secondary", "Code") ->
  Main.occurrences App.articleOpen (App.linkPart url kind label +:+ s)
  = Main.occurrences App.articleOpen s.
Proof.
  change App.articleOpen with (String "<" (String.substring 1 100 App.articleOpen)).
  unfold App.linkPart.
  intros [[= -> ->]|[= -> ->]]; destruct (Js.truthy url); rewrite ?append_assoc.
  all: repeat first [count_literal | count_text].
  all: done.
Qed.

Lemma project_card_count (project : App.Project) (s : string) :
  Main.occurrences App.articleOpen (App.projectCard project +:+ s)
  = S (Main.occurrences App.articleOpen s).
Proof.
  unfold App.projectCard. rewrite !append_assoc.
  pose proof techs_count as Htechs.
  pose proof imagePart_count as Himage.
  pose proof badgePart_count as Hbadge.
  pose proof linkPart_count as Hlink.
  change App.articleOpen with (String "<" (String.substring 1 100 App.articleOpen)) in *.
  count_literal. count_text. count_literal. rewrite Himage.
  count_literal. rewrite Hbadge. count_literal. count_text.
  count_literal. count_text. count_literal. rewrite Htechs.
  count_literal. rewrite Hlink by (by left).
  count_literal. rewrite Hlink by (by right).
  count_literal. done.
Qed.

Lemma project_cards_count (projects : list App.Project) :
  Main.occurrences App.articleOpen (Main.join (map App.projectCard projects))
  = length projects.
Proof.
  induction projects as [|project projects IH]; [by vm_compute|].
  change (Main.join (map App.projectCard (project :: projects)))
    with (App.projectCard project +:+ Main.join (map App.projectCard projects)).
  by rewrite project_card_count, IH.
Qed.

Lemma sort_insert_between {A} (compare : A -> A -> Z) (x : A) (before after : list A) :
  Forall (fun y => 0 < compare x y) before ->
  (forall y rest, after = y :: rest -> compare x y <= 0) ->
  Js.sort_insert compare x (before ++ after) = before ++ x :: after.
Proof.
  intros Hb Ha. induction Hb as [|y before Hy Hb IH]; cbn [app Js.sort_insert].
  - destruct after as [|y rest]; [done|]. cbn [Js.sort_insert].
    specialize (Ha y rest eq_refl). apply Z.ltb_ge in Ha. by rewrite Ha.
  - apply Z.ltb_lt in Hy. by rewrite Hy, IH.
Qed.

(** Sorting by [compare_featured] puts the featured projects first and
    keeps the order inside both groups. *)
Lemma sort_featured (projects : list App.Project) :
  Js.sort App.compare_featured projects
  = List.filter App.featured projects
    ++ List.filter (fun p => negb (App.featured p)) projects.
Proof.
  induction projects as [|x projects IH]; [done|].
  cbn [Js.sort List.filter]. rewrite IH.
  destruct (App.featured x) eqn:Ex; cbn [negb].
  - apply (sort_insert_between _ x []); [constructor|].
    intros y rest _. unfold App.compare_featured. rewrite Ex.
    by destruct (App.featured y).
  - rewrite sort_insert_between; [done| |].
    + apply Forall_forall. intros y Hy. apply list_elem_of_In, filter_In in Hy as [_ Hy].
      unfold App.compare_featured. by rewrite Ex, Hy.
    + intros y rest Hy.
      assert (Hin : In y (List.filter (fun p => negb (App.featured p)) projects))
        by (rewrite Hy; by left).
      apply filter_In in Hin as [_ Hin]. apply negb_true_iff in Hin.
      unfold App.compare_featured. by rewrite Ex, Hin.
Qed.

(** Whatever the projects hold (markup included: every value shown is
    escaped), renderProjects, given its container, assigns markup with
    exactly one opening tag of a project card per project; for a
    non-empty array the markup is the sequence of the cards of the
    featured projects followed by the cards of the others, each group in
    the order of the array. *)
Theorem renderProjects_cards (projectsData : list App.Project) :
  exists html,
    App.renderProjects true projectsData = (Some html, [])
    /\ Main.occurrences App.articleOpen html = length projectsData
    /\ (projectsData <> [] ->
        html = Main.join (map App.projectCard
                 (List.filter App.featured projectsData
                  ++ List.filter (fun p => negb (App.featured p)) projectsData))).
Proof.
  destruct projectsData as [|project rest].
  - eexists. split; [reflexivity|]. split; [by vm_compute|done].
  - eexists. split; [reflexivity|]. split.
    + rewrite project_cards_count. apply Permutation_length, sort_perm.
    + intros _. by rewrite sort_featured.
Qed.

Lemma renderProjects_cards_witness :
  App.projectsData <> []
  /\ exists html,
       App.renderProjects true App.projectsData = (Some html, [])
       /\ Main.occurrences App.articleOpen html = 3%nat
       /\ html = Main.join (map App.projectCard App.projectsData).
Proof.
  split; [done|].
  destruct (renderProjects_cards App.projectsData) as (html & Hr & Hn & Hs).
  exists html. split; [exact Hr|]. split; [exact Hn|].
  by apply Hs.
Defined.

(** ** The mobile menu *)

Lemma closeMobileMenu_shows (app : App.Menu) : App.shows (App.closeMobileMenu app).
Proof.
  destruct app as [open [[classes aria]|] [list|] [body|]]; unfold App.shows; cbn.
  all: split; [|split]; intros ? H; try discriminate H; injection H as <-; cbn.
  all: try (split; [|done]).
  all: apply bool_decide_eq_false; set_solver.
Qed.

Lemma openMobileMenu_shows (app : App.Menu) :
  App.isMobileMenuOpen app = true -> App.shows (App.openMobileMenu app).
Proof.
  destruct app as [open [[classes aria]|] [list|] [body|]]; unfold App.shows; cbn.
  all: intros ->.
  all: split; [|split]; intros ? H; try discriminate H; injection H as <-; cbn.
  all: try (split; [|done]).
  all: apply bool_decide_eq_true; set_solver.
Qed.

Lemma toggleMobileMenu_shows (app : App.Menu) : App.shows (App.toggleMobileMenu app).
Proof.
  unfold App.toggleMobileMenu. cbn [App.isMobileMenuOpen].
  destruct (negb (App.isMobileMenuOpen app)) eqn:E.
  - by apply openMobileMenu_shows.
  - apply closeMobileMenu_shows.
Qed.

Lemma dispatch_shows (app : App.Menu) (e : App.MenuEvent) :
  App.shows app -> App.shows (App.dispatch app e).
Proof.
  intros H. destruct e as [|href|innerWidth|key]; cbn.
  - destruct (App.menuToggle app); [apply toggleMobileMenu_shows | exact H].
  - unfold App.handleNavClick.
    destruct (Js.truthy href && Js.startsWith (default EmptyString href) "#");
      [apply closeMobileMenu_shows | exact H].
  - unfold App.handleResize.
    destruct (App.MOBILE_MENU_BREAKPOINT <? innerWidth);
      [apply closeMobileMenu_shows | exact H].
  - unfold App.handleKeyDown.
    destruct (String.eqb key "Escape" && App.isMobileMenuOpen app);
      [apply closeMobileMenu_shows | exact H].
Qed.

Lemma dispatch_without_button (app : App.Menu) (e : App.MenuEvent) :
  App.menuToggle app = None -> App.isMobileMenuOpen app = false ->
  App.menuToggle (App.dispatch app e) = None
  /\ App.isMobileMenuOpen (App.dispatch app e) = false.
Proof.
  destruct app as [open toggle list body]. cbn. intros -> ->.
  destruct e as [|href|innerWidth|key]; cbn.
  - done.
  - unfold App.handleNavClick.
    by destruct (Js.truthy href && Js.startsWith (default EmptyString href) "#").
  - unfold App.handleResize. by destruct (App.MOBILE_MENU_BREAKPOINT <? innerWidth).
  - unfold App.handleKeyDown. cbn. by rewrite andb_false_r.
Qed.

(** Once [initializeUI] has run, whatever the page looked like before and
    whatever clicks, key presses and resizes follow, the page shows what
    the flag isMobileMenuOpen says: the button and the list carry the
    class is-open, the body carries menu-open and the button has
    aria-expanded true exactly when the flag is set (each as far as the
    element is on the page).  On a page without the menu button the menu
    is never open. *)
Theorem mobile_menu_shows_its_state (app : App.Menu) (es : list App.MenuEvent) :
  App.shows (fold_left App.dispatch es (App.initializeUI app))
  /\ (App.menuToggle app = None ->
      App.isMobileMenuOpen (fold_left App.dispatch es (App.initializeUI app)) = false).
Proof.
  split.
  - generalize (closeMobileMenu_shows app). unfold App.initializeUI.
    generalize (App.closeMobileMenu app). clear app.
    induction es as [|e es IH]; intros app H; [exact H|].
    cbn [fold_left]. by apply IH, dispatch_shows.
  - intros Hn.
    assert (H : App.menuToggle (App.initializeUI app) = None
                /\ App.isMobileMenuOpen (App.initializeUI app) = false).
    { destruct app as [open toggle list body]. cbn in Hn. by subst. }
    revert H. generalize (App.initializeUI app). clear app Hn.
    induction es as [|e es IH]; intros app [H1 H2]; [exact H2|].
    cbn [fold_left]. by apply IH, dispatch_without_button.
Qed.

Lemma mobile_menu_shows_its_state_witness :
  let page := {| App.isMobileMenuOpen := true; App.menuToggle := None;
                 App.navList := Some {["header__nav-list"; "is-open"]};
                 App.body := Some {["loading"]} |} in
  let events := [App.ClickMenuToggle; App.KeyDown "Escape"; App.Resized 1024] in
  App.menuToggle page = None
  /\ App.isMobileMenuOpen (fold_left App.dispatch events (App.initializeUI page)) = false.
Proof.
  intros page events. split; [reflexivity|].
  by apply (mobile_menu_shows_its_state page events).
Defined.
